(** * Email archiver: a shallow embedding of [src/email_archiver.py]

    The development follows the class [EmailArchiver]:
    text helpers (the [str] methods the code calls), header decoding,
    the two inline filename sanitizers, the SQLite store with its two
    tables, the per-message pipeline, the batch loop and the search query.

    Modelling conventions.
    - A Python [str] is a [string] whose characters are code points
      below 256; [isalnum], [isspace] and [lower] are Python's on that
      range.  [bytes] are [string]s too.
    - What the environment decides (the IMAP server's answers, failures
      of the file system, of SQLite and of the clock) is read from a
      record [Env] of oracles; everything the program decides is computed.
    - Exceptions are values: a computation returns [Ok v] or [Raise e]
      together with the state it leaves behind.
    - Message identifiers are the sequence numbers the server returns,
      ASCII text on which [bytes.decode()] is the identity.
    - The log holds the records at INFO and above; the [logger.debug]
      lines, which the default configuration drops, are left out, and so
      are the [print] lines of [search_emails]. *)

From Stdlib Require Import Ascii String List Arith Bool Lia Sorted Permutation.
From Stdlib Require Import DecimalString.
From stdpp Require Import gmap strings.

Local Open Scope string_scope.
Local Open Scope list_scope.
Local Open Scope nat_scope.

(** ** Text: the [str] methods used by the archiver *)

Module Text.

Definition code (c : ascii) : nat := nat_of_ascii c.

Definition between (lo hi : nat) (c : ascii) : bool :=
  (lo <=? code c) && (code c <=? hi).

(** [c.isalnum()] *)
Definition isalnum (c : ascii) : bool :=
  between 48 57 c || between 65 90 c || between 97 122 c
  || (code c =? 170) || (code c =? 178) || (code c =? 179)
  || (code c =? 181) || (code c =? 185) || (code c =? 186)
  || between 188 190 c || between 192 214 c || between 216 246 c
  || between 248 255 c.

(** the characters [str.split()] and [str.strip()] treat as white space *)
Definition isspace (c : ascii) : bool :=
  between 9 13 c || between 28 32 c || (code c =? 133) || (code c =? 160).

(** [c.lower()] *)
Definition lower_char (c : ascii) : ascii :=
  if between 65 90 c || between 192 214 c || between 216 222 c
  then ascii_of_nat (code c + 32) else c.

Fixpoint map (f : ascii -> ascii) (s : string) : string :=
  match s with
  | EmptyString => EmptyString
  | String c r => String (f c) (map f r)
  end.

Fixpoint filter (p : ascii -> bool) (s : string) : string :=
  match s with
  | EmptyString => EmptyString
  | String c r => if p c then String c (filter p r) else filter p r
  end.

Fixpoint Forall (P : ascii -> Prop) (s : string) : Prop :=
  match s with
  | EmptyString => True
  | String c r => P c /\ Forall P r
  end.

(** [s.lower()] *)
Definition lower (s : string) : string := map lower_char s.

(** [s[:n]] *)
Fixpoint take (n : nat) (s : string) : string :=
  match n, s with
  | S k, String c r => String c (take k r)
  | _, _ => EmptyString
  end.

Fixpoint rev_onto (s acc : string) : string :=
  match s with
  | EmptyString => acc
  | String c r => rev_onto r (String c acc)
  end.

Definition rev (s : string) : string := rev_onto s EmptyString.

Fixpoint lstrip (s : string) : string :=
  match s with
  | EmptyString => EmptyString
  | String c r => if isspace c then lstrip r else s
  end.

(** [s.strip()] *)
Definition strip (s : string) : string := rev (lstrip (rev (lstrip s))).

(** [s.split()]: the maximal runs of characters that are not white space.
    [cur] is the run being read, in reverse. *)
Fixpoint split_ws_from (cur : string) (s : string) : list string :=
  match s with
  | EmptyString =>
      match cur with EmptyString => [] | _ => [rev cur] end
  | String c r =>
      if isspace c
      then match cur with
           | EmptyString => split_ws_from EmptyString r
           | _ => rev cur :: split_ws_from EmptyString r
           end
      else split_ws_from (String c cur) r
  end.

Definition split_ws (s : string) : list string := split_ws_from EmptyString s.

(** [s.split(sep)[0]] for a one-character separator *)
Fixpoint split_first (sep : ascii) (s : string) : string :=
  match s with
  | EmptyString => EmptyString
  | String c r => if Ascii.eqb c sep then EmptyString else String c (split_first sep r)
  end.

(** [s.split(sep)[-1]] for a one-character separator *)
Fixpoint split_last_from (sep : ascii) (cur : string) (s : string) : string :=
  match s with
  | EmptyString => rev cur
  | String c r =>
      if Ascii.eqb c sep then split_last_from sep EmptyString r
      else split_last_from sep (String c cur) r
  end.

Definition split_last (sep : ascii) (s : string) : string :=
  split_last_from sep EmptyString s.

(** [sep.join(l)] *)
Fixpoint join (sep : string) (l : list string) : string :=
  match l with
  | [] => EmptyString
  | [x] => x
  | x :: r => x ++ sep ++ join sep r
  end.

(** [needle in s] *)
Fixpoint contains (needle s : string) : bool :=
  String.prefix needle s
  || match s with
     | EmptyString => false
     | String _ r => contains needle r
     end.

(** [str(n)] *)
Definition of_nat (n : nat) : string := NilEmpty.string_of_uint (Nat.to_uint n).

End Text.

(** ** The filename sanitizers (lines 150-153 and 184-187) *)

(** [c if c.isalnum() or c in allowed else '_'] *)
Definition sanitize_char (allowed : list ascii) (c : ascii) : ascii :=
  if Text.isalnum c || existsb (Ascii.eqb c) allowed then c else "_"%char.

(** the comprehension joined on the empty string, then [[:maxlen]] *)
Definition sanitize (allowed : list ascii) (maxlen : nat) (text : string) : string :=
  Text.take maxlen (Text.map (sanitize_char allowed) text).

Definition sender_chars : list ascii := ["@"; "."; "-"; "_"]%char.
Definition filename_chars : list ascii := ["."; "-"; "_"]%char.

(** [safe_sender], computed from [sender.split('@')[0]] *)
Definition safe_sender (sender : string) : string :=
  sanitize sender_chars 50 (Text.split_first "@" sender).

(** [safe_filename] *)
Definition safe_filename (filename : string) : string :=
  sanitize filename_chars 100 filename.

(** a character the sanitizer may emit *)
Definition safe_char (allowed : list ascii) (c : ascii) : Prop :=
  Text.isalnum c = true \/ In c allowed \/ c = "_"%char.

(** ** Exceptions and results *)

Inductive exn : Type :=
| AttributeError      (* a missing attribute, here [self.db_conn] *)
| IndexError
| TypeError
| LookupError         (* unknown codec name *)
| HeaderParseError    (* raised inside [email.header.decode_header] *)
| OSError             (* [os.makedirs], [open] *)
| IntegrityError      (* sqlite3: UNIQUE constraint failed *)
| OperationalError    (* sqlite3: locked database, full disk, ... *)
| IMAP4Error.         (* imaplib: protocol or network failure *)

(** what stands for [str(e)] in the log lines *)
Definition str_exn (e : exn) : string :=
  match e with
  | AttributeError => "AttributeError"
  | IndexError => "IndexError"
  | TypeError => "TypeError"
  | LookupError => "LookupError"
  | HeaderParseError => "HeaderParseError"
  | OSError => "OSError"
  | IntegrityError => "IntegrityError"
  | OperationalError => "OperationalError"
  | IMAP4Error => "IMAP4Error"
  end.

Inductive result (A : Type) : Type :=
| Ok (a : A)
| Raise (e : exn).

Arguments Ok {A} a.
Arguments Raise {A} e.

(** ** Parsed messages *)

(** A MIME part as [email.message.Message] exposes it to the archiver:
    [get_content_type()], [get('Content-Disposition')], [get_filename()],
    and either the sub-parts ([is_multipart()]) or
    [get_payload(decode=True)], which is [None] or the decoded bytes. *)
#[warnings="-register-all"] Inductive Part : Type :=
| Leaf (content_type : string) (disposition : option string)
       (filename : option string) (payload : option string)
| Multipart (content_type : string) (disposition : option string)
            (filename : option string) (subparts : list Part).

Definition get_content_type (p : Part) : string :=
  match p with Leaf ct _ _ _ | Multipart ct _ _ _ => ct end.

Definition get_content_disposition (p : Part) : option string :=
  match p with Leaf _ d _ _ | Multipart _ d _ _ => d end.

Definition get_filename (p : Part) : option string :=
  match p with Leaf _ _ f _ | Multipart _ _ f _ => f end.

Definition is_multipart (p : Part) : bool :=
  match p with Leaf _ _ _ _ => false | Multipart _ _ _ _ => true end.

Definition get_payload (p : Part) : option string :=
  match p with Leaf _ _ _ b => b | Multipart _ _ _ _ => None end.

(** [part.walk()]: the part itself, then its sub-parts depth first *)
Fixpoint walk (p : Part) : list Part :=
  p :: match p with
       | Leaf _ _ _ _ => []
       | Multipart _ _ _ ps => flat_map walk ps
       end.

(** The result of [email.message_from_bytes]: the three headers the
    archiver reads ([None] when absent) and the root part. *)
Record Message : Type := {
  hdr_subject : option string;
  hdr_from : option string;
  hdr_date : option string;
  root : Part
}.

(** ** The store: two tables behind one SQLite connection *)

(** a row of [archived_emails] *)
Record EmailRow : Type := {
  e_id : nat;
  e_email_id : string;
  e_subject : string;
  e_sender : string;
  e_date_received : string;
  e_attachments : string;
  e_keywords : option string;       (* never written: stays NULL *)
  e_archive_path : string;
  e_processed_at : string
}.

(** a row of [search_index] *)
Record IndexRow : Type := {
  s_id : nat;
  s_email_id : nat;
  s_keyword : string
}.

(** The database file: both tables and the [sqlite_sequence] counters
    that AUTOINCREMENT keeps for them. *)
Record DB : Type := {
  archived_emails : list EmailRow;
  search_index : list IndexRow;
  seq_archived_emails : nat;
  seq_search_index : nat
}.

(** [create_database] on a new file *)
Definition empty_db : DB :=
  {| archived_emails := []; search_index := [];
     seq_archived_emails := 0; seq_search_index := 0 |}.

(** A connection: what is committed (what any other reader sees) and the
    state of the open transaction (what this connection sees). *)
Record Conn : Type := {
  committed : DB;
  working : DB
}.

Definition connect_db (db : DB) : Conn := {| committed := db; working := db |}.
Definition commit (c : Conn) : Conn := connect_db (working c).
Definition rollback (c : Conn) : Conn := connect_db (committed c).
Definition with_working (c : Conn) (db : DB) : Conn :=
  {| committed := committed c; working := db |}.

(** AUTOINCREMENT: one more than the largest rowid the table ever had *)
Definition next_rowid (seq : nat) (rowids : list nat) : nat :=
  S (Nat.max seq (list_max rowids)).

(** [INSERT INTO archived_emails (email_id, subject, sender,
    date_received, attachments, archive_path) VALUES (...)]: fails on a
    duplicate [email_id]; otherwise returns the table and the new rowid. *)
Definition insert_archived_email (db : DB) (email_id subject sender
    date_received attachments archive_path now : string) : result (DB * nat) :=
  if existsb (fun e => String.eqb (e_email_id e) email_id) (archived_emails db)
  then Raise IntegrityError
  else
    let rowid := next_rowid (seq_archived_emails db)
                            (List.map e_id (archived_emails db)) in
    Ok ({| archived_emails := archived_emails db ++
             [{| e_id := rowid; e_email_id := email_id; e_subject := subject;
                 e_sender := sender; e_date_received := date_received;
                 e_attachments := attachments; e_keywords := None;
                 e_archive_path := archive_path; e_processed_at := now |}];
           search_index := search_index db;
           seq_archived_emails := rowid;
           seq_search_index := seq_search_index db |}, rowid).

(** [INSERT INTO search_index (email_id, keyword) VALUES (?, ?)]: no
    constraint is enforced (foreign keys are off by default). *)
Definition insert_search_index (db : DB) (email_ref : nat) (keyword : string)
  : DB * nat :=
  let rowid := next_rowid (seq_search_index db) (List.map s_id (search_index db)) in
  ({| archived_emails := archived_emails db;
      search_index := search_index db ++
        [{| s_id := rowid; s_email_id := email_ref; s_keyword := keyword |}];
      seq_archived_emails := seq_archived_emails db;
      seq_search_index := rowid |}, rowid).

(** ** The environment *)

(** a chunk returned by [email.header.decode_header] *)
Inductive decoded : Type :=
| Bytes (b : string)
| Str (s : string).

(** Everything the archiver asks of its libraries, of the IMAP server, of
    the operating system and of SQLite.  An oracle keyed by an
    identifier or a path answers for the call made with that argument. *)
Record Env : Type := {
  (* library functions *)
  decode_header : string -> result (list (decoded * option string));
  bytes_decode : string -> string -> option string;
      (* [b.decode(codec, errors='replace')]; [None] for an unknown codec *)
  (* self.config *)
  archive_root : string;
  delete_after_archive : bool;
  (* imaplib *)
  imap_connect_raises : bool;
  imap_search : result (string * list string);
      (* the status and [messages[0].split()] *)
  imap_fetch : string -> result (string * option Message);
      (* the status and the parsed [msg_data[0][1]]; [None] when
         [msg_data] holds no message to index *)
  imap_store_raises : string -> bool;
  imap_close_raises : bool;
  imap_logout_raises : bool;
  (* operating system *)
  today : string -> string;            (* strftime('%Y-%m-%d') while handling an identifier *)
  makedirs_raises : string -> bool;
  open_raises : string -> bool;
  (* sqlite3 *)
  sqlite_raises : string -> nat -> bool;
      (* does statement number [k] of the transaction for an identifier
         fail?  0 is the INSERT of the record, 1.. are the keyword
         INSERTs, the last one is the COMMIT *)
  current_timestamp : string -> string;
  select_raises : nat -> bool
      (* the statements of [search_emails]: 0 reads [sqlite_master],
         1 is the query *)
}.

(** ** The state *)

Inductive level : Type := INFO | WARNING | ERROR.

(** calls made on the mailbox session *)
Inductive ImapCall : Type :=
| Login
| Search
| Fetch (email_id : string)
| FlagDeleted (email_id : string)
| Close
| Logout.

(** The attributes of the [EmailArchiver] object that change or may be
    missing, and the world it acts on. *)
Record State : Type := {
  db_conn : option Conn;            (* [None]: the attribute is not set *)
  error_count : nat;
  log : list (level * string);
  files : gmap string string;       (* path -> content *)
  dirs : gset string;
  imap : list ImapCall              (* in the order made *)
}.

Definition max_emails_per_session : nat := 100.
Definition max_errors : nat := 5.

Definition set_db_conn (c : option Conn) (st : State) : State :=
  {| db_conn := c; error_count := error_count st; log := log st;
     files := files st; dirs := dirs st; imap := imap st |}.

Definition set_error_count (n : nat) (st : State) : State :=
  {| db_conn := db_conn st; error_count := n; log := log st;
     files := files st; dirs := dirs st; imap := imap st |}.

Definition add_log (l : level) (msg : string) (st : State) : State :=
  {| db_conn := db_conn st; error_count := error_count st;
     log := log st ++ [(l, msg)];
     files := files st; dirs := dirs st; imap := imap st |}.

Definition add_file (path content : string) (st : State) : State :=
  {| db_conn := db_conn st; error_count := error_count st; log := log st;
     files := <[path := content]> (files st); dirs := dirs st; imap := imap st |}.

Definition add_dir (path : string) (st : State) : State :=
  {| db_conn := db_conn st; error_count := error_count st; log := log st;
     files := files st; dirs := {[path]} ∪ dirs st; imap := imap st |}.

Definition add_call (c : ImapCall) (st : State) : State :=
  {| db_conn := db_conn st; error_count := error_count st; log := log st;
     files := files st; dirs := dirs st; imap := imap st ++ [c] |}.

(** ** Computations: state and exceptions *)

Definition M (A : Type) : Type := State -> result A * State.

Definition ret {A} (a : A) : M A := fun st => (Ok a, st).

Definition raise {A} (e : exn) : M A := fun st => (Raise e, st).

Definition bind {A B} (m : M A) (k : A -> M B) : M B :=
  fun st => match m st with
            | (Ok a, st') => k a st'
            | (Raise e, st') => (Raise e, st')
            end.

(** [try: m except Exception as e: h e] *)
Definition try_except {A} (m : M A) (h : exn -> M A) : M A :=
  fun st => match m st with
            | (Ok a, st') => (Ok a, st')
            | (Raise e, st') => h e st'
            end.

(** [try: m finally: f] *)
Definition try_finally {A} (m : M A) (f : M unit) : M A :=
  fun st => match m st with
            | (r, st') => match f st' with
                          | (Ok _, st'') => (r, st'')
                          | (Raise e, st'') => (Raise e, st'')
                          end
            end.

Definition get : M State := fun st => (Ok st, st).
Definition modify (f : State -> State) : M unit := fun st => (Ok tt, f st).

Notation "'let*' x := m 'in' k" := (bind m (fun x => k))
  (at level 10, x name, m at level 100, k at level 200, only parsing).
Notation "m ;;; k" := (bind m (fun _ => k))
  (at level 100, k at level 200, right associativity, only parsing).

Definition logger (l : level) (msg : string) : M unit := modify (add_log l msg).

(** an environment call that either raises or returns *)
Definition guard (raises : bool) (e : exn) : M unit :=
  if raises then raise e else ret tt.

(** reading [self.db_conn] *)
Definition self_db_conn : M Conn :=
  fun st => match db_conn st with
            | Some c => (Ok c, st)
            | None => (Raise AttributeError, st)
            end.

(** one SQL statement on the connection: the environment may make it
    fail; otherwise it acts on the open transaction *)
Definition execute {A} (raises : bool) (stmt : DB -> result (DB * A)) : M A :=
  let* c := self_db_conn in
  guard raises OperationalError ;;;
  match stmt (working c) with
  | Ok (db, a) => modify (set_db_conn (Some (with_working c db))) ;;; ret a
  | Raise e => raise e
  end.

(** [self.db_conn.commit()] and [self.db_conn.rollback()] *)
Definition db_commit (raises : bool) : M unit :=
  let* c := self_db_conn in
  guard raises OperationalError ;;;
  modify (set_db_conn (Some (commit c))).

Definition db_rollback : M unit :=
  let* c := self_db_conn in
  modify (set_db_conn (Some (rollback c))).

(** ** [os.path.join] (posixpath) *)

Definition ends_with_sep (path : string) : bool :=
  match Text.rev path with
  | String c _ => Ascii.eqb c "/"
  | EmptyString => false
  end.

Definition path_join2 (path b : string) : string :=
  if String.prefix "/" b then b
  else if (String.eqb path EmptyString || ends_with_sep path) then path ++ b
  else path ++ "/" ++ b.

Definition os_path_join (a : string) (ps : list string) : string :=
  fold_left path_join2 ps a.

(** ** Keyword extraction (lines 239-244) *)

(** [''.join(c for c in word if c.isalnum())] *)
Definition clean_word (word : string) : string := Text.filter Text.isalnum word.

(** [3 <= len(clean_word) <= 30] *)
Definition reasonable_length (w : string) : bool :=
  (3 <=? String.length w) && (String.length w <=? 30).

(** the inner loop over [text.lower().split()] *)
Definition add_words (text : string) (keywords : gset string) : gset string :=
  fold_left
    (fun ks word =>
       let w := clean_word word in
       if reasonable_length w then {[w]} ∪ ks else ks)
    (Text.split_ws (Text.lower text)) keywords.

(** the set [keywords] after the loop over [[subject, sender]] *)
Definition extract_keywords (subject sender : string) : gset string :=
  add_words sender (add_words subject ∅).

(** ** The search query (lines 272-284) *)

(** the dictionary built for a selected row *)
Record Hit : Type := {
  subject : string;
  sender : string;
  date : string;
  attachments : string;
  path : string
}.

#[global] Instance Hit_eq_dec : EqDecision Hit.
Proof. solve_decision. Defined.

(** SQLite's LIKE compares characters after folding the ASCII letters *)
Definition fold_ascii (c : ascii) : ascii :=
  if Text.between 65 90 c then ascii_of_nat (Text.code c + 32) else c.

Definition like_char (c d : ascii) : bool :=
  Ascii.eqb (fold_ascii c) (fold_ascii d).

(** [text LIKE pattern]: [%] matches any run of characters, [_] any one
    character, every other character itself up to ASCII case *)
Fixpoint like (pattern : string) : string -> bool :=
  match pattern with
  | EmptyString =>
      fun text => match text with EmptyString => true | _ => false end
  | String c rest =>
      if Ascii.eqb c "%" then
        fix any_run (text : string) : bool :=
          like rest text
          || match text with
             | EmptyString => false
             | String _ text' => any_run text'
             end
      else if Ascii.eqb c "_" then
        fun text => match text with
                    | String _ text' => like rest text'
                    | EmptyString => false
                    end
      else
        fun text => match text with
                    | String d text' => like_char c d && like rest text'
                    | EmptyString => false
                    end
  end.

(** [archived_emails e LEFT JOIN search_index s ON e.id = s.email_id] *)
Definition left_join (db : DB) : list (EmailRow * option IndexRow) :=
  flat_map
    (fun e =>
       match List.filter (fun s => s_email_id s =? e_id e) (search_index db) with
       | [] => [(e, None)]
       | rows => List.map (fun s => (e, Some s)) rows
       end)
    (archived_emails db).

(** the WHERE clause; a NULL keyword matches nothing *)
Definition where_clause (pattern : string) (r : EmailRow * option IndexRow)
  : bool :=
  let (e, s) := r in
  like pattern (e_subject e) || like pattern (e_sender e)
  || like pattern (e_attachments e) || like pattern (e_date_received e)
  || match s with
     | Some row => like pattern (s_keyword row)
     | None => false
     end.

(** the selected columns *)
Definition hit_of (e : EmailRow) : Hit :=
  {| subject := e_subject e; sender := e_sender e;
     date := e_date_received e; attachments := e_attachments e;
     path := e_archive_path e |}.

(** ORDER BY date_received DESC under the BINARY collation; rows with
    equal dates keep the order in which they were produced *)
Fixpoint insert_desc (h : Hit) (l : list Hit) : list Hit :=
  match l with
  | [] => [h]
  | x :: r =>
      if String.leb (date x) (date h) then h :: l else x :: insert_desc h r
  end.

Definition order_by_date_desc (l : list Hit) : list Hit :=
  fold_right insert_desc [] l.

(** the rows the query selects before LIMIT applies *)
Definition select_all (db : DB) (pattern : string) : list Hit :=
  order_by_date_desc
    (remove_dups
       (List.map (fun r => hit_of (fst r))
          (List.filter (where_clause pattern) (left_join db)))).

(** the whole SELECT ... LIMIT 100 *)
Definition select_hits (db : DB) (pattern : string) : list Hit :=
  firstn 100 (select_all db pattern).

Section Archiver.

Variable env : Env.

(** ** [safe_decode_header] (lines 78-89) *)

(** [encoding or 'utf-8'] *)
Definition encoding_or_utf8 (encoding : option string) : string :=
  match encoding with
  | Some EmptyString | None => "utf-8"
  | Some enc => enc
  end.

Definition safe_decode_header (header : option string) : M string :=
  match header with
  | None => ret "(No Header)"
  | Some h =>
      try_except
        (match decode_header env h with
         | Raise e => raise e
         | Ok [] => raise IndexError
         | Ok ((Bytes b, encoding) :: _) =>
             match bytes_decode env (encoding_or_utf8 encoding) b with
             | Some text => ret text
             | None => raise LookupError
             end
         | Ok ((Str text, _) :: _) => ret text
         end)
        (fun e =>
           logger WARNING ("Header decode failed: " ++ str_exn e) ;;;
           ret (Text.take 100 h))
  end.

(** ** [store_email_metadata] (lines 227-255) *)

(** The loop [for keyword in keywords]: statement number [k] inserts
    [(cursor.lastrowid, keyword)], and [cursor.lastrowid] then becomes
    the rowid of the row just inserted. *)
Fixpoint insert_keywords (email_id : string) (k : nat) (lastrowid : nat)
    (keywords : list string) : M nat :=
  match keywords with
  | [] => ret lastrowid
  | keyword :: rest =>
      let* rowid := execute (sqlite_raises env email_id k)
                      (fun db => Ok (insert_search_index db lastrowid keyword)) in
      insert_keywords email_id (S k) rowid rest
  end.

Definition store_email_metadata (email_id subject sender date_received : string)
    (attachments : list string) (archive_path : string) : M unit :=
  try_except
    (let* lastrowid :=
       execute (sqlite_raises env email_id 0)
         (fun db => insert_archived_email db email_id subject sender
                      date_received (Text.join ", " attachments) archive_path
                      (current_timestamp env email_id)) in
     let keywords := elements (extract_keywords subject sender) in
     insert_keywords email_id 1 lastrowid keywords ;;;
     db_commit (sqlite_raises env email_id (S (length keywords))))
    (fun e =>
       db_rollback ;;;
       logger ERROR ("Database error: " ++ str_exn e)).

(** ** [process_single_email] (lines 128-225) *)

(** [f"attachment_{len(attachments)}.{ext}"] *)
Definition default_filename (attachments : list string) (content_type : string)
  : string :=
  "attachment_" ++ Text.of_nat (length attachments) ++ "."
    ++ Text.split_last "/" content_type.

(** [str(part.get('Content-Disposition'))] *)
Definition str_option (o : option string) : string :=
  match o with Some s => s | None => "None" end.

(** [with open(filepath, 'wb') as f: f.write(payload)] *)
Definition write_file (filepath payload : string) : M unit :=
  guard (open_raises env filepath) OSError ;;;
  modify (add_file filepath payload).

(** one iteration of the loop over [email_message.walk()] *)
Definition process_part (archive_dir : string) (attachments : list string)
    (part : Part) : M (list string) :=
  let content_type := get_content_type part in
  let disposition := str_option (get_content_disposition part) in
  if is_multipart part then ret attachments
  else if negb (Text.contains "attachment" (Text.lower disposition))
  then ret attachments
  else
    let filename :=
      match get_filename part with
      | None | Some EmptyString => default_filename attachments content_type
      | Some name => name
      end in
    let* filename := safe_decode_header (Some filename) in
    let safe_name := safe_filename filename in
    let filepath := os_path_join archive_dir [safe_name] in
    try_except
      (match get_payload part with
       | None | Some EmptyString =>
           logger WARNING "Empty attachment payload" ;;; ret attachments
       | Some payload =>
           write_file filepath payload ;;;
           logger INFO ("Saved attachment: " ++ safe_name) ;;;
           ret (attachments ++ [safe_name])
       end)
      (fun e =>
         logger ERROR ("Failed to save " ++ filename ++ ": " ++ str_exn e) ;;;
         ret attachments).

Fixpoint process_parts (archive_dir : string) (attachments : list string)
    (parts : list Part) : M (list string) :=
  match parts with
  | [] => ret attachments
  | part :: rest =>
      let* attachments := process_part archive_dir attachments part in
      process_parts archive_dir attachments rest
  end.

(** [mail.fetch(email_id, '(RFC822)')] *)
Definition mail_fetch (email_id : string) : M (string * option Message) :=
  modify (add_call (Fetch email_id)) ;;;
  match imap_fetch env email_id with
  | Ok r => ret r
  | Raise e => raise e
  end.

(** [mail.store(email_id, '+FLAGS', '\Deleted')] *)
Definition mail_store_deleted (email_id : string) : M unit :=
  modify (add_call (FlagDeleted email_id)) ;;;
  guard (imap_store_raises env email_id) IMAP4Error.

(** [os.makedirs(archive_dir, exist_ok=True)] *)
Definition os_makedirs (path : string) : M unit :=
  guard (makedirs_raises env path) OSError ;;;
  modify (add_dir path).

(** the directory allocated to a message (lines 149-160) *)
Definition archive_dir_of (email_id sender : string) : string :=
  os_path_join (archive_root env)
    [today env email_id; safe_sender sender; Text.take 10 email_id].

Definition process_single_email (email_id : string) : M bool :=
  try_except
    (let* fetched := mail_fetch email_id in
     let '(status, msg_data) := fetched in
     if negb (String.eqb status "OK") then
       logger WARNING ("Fetch failed for email b'" ++ email_id ++ "'") ;;;
       ret false
     else
       let* email_message :=
         match msg_data with
         | Some m => ret m
         | None => raise TypeError
         end in
       let* subject := safe_decode_header (hdr_subject email_message) in
       let* sender := safe_decode_header (hdr_from email_message) in
       let* date_received := safe_decode_header (hdr_date email_message) in
       let archive_dir := archive_dir_of email_id sender in
       os_makedirs archive_dir ;;;
       let* attachments :=
         process_parts archive_dir [] (walk (root email_message)) in
       match attachments with
       | _ :: _ =>
           store_email_metadata email_id subject sender date_received
             attachments archive_dir ;;;
           (if delete_after_archive env then mail_store_deleted email_id
            else ret tt) ;;;
           ret true
       | [] =>
           logger WARNING "No attachments found in email" ;;; ret false
       end)
    (fun e =>
       modify (fun st => set_error_count (error_count st + 1) st) ;;;
       logger ERROR ("Error processing email: " ++ str_exn e) ;;;
       ret false).

(** ** [connect_to_mailbox] and [process_emails] (lines 64-126) *)

(** [True] stands for the session object, [False] for [None] *)
Definition connect_to_mailbox : M bool :=
  try_except
    (modify (add_call Login) ;;;
     guard (imap_connect_raises env) IMAP4Error ;;;
     ret true)
    (fun e =>
       logger ERROR ("IMAP connection failed: " ++ str_exn e) ;;;
       ret false).

(** [mail.search(None, '(UNSEEN)')] *)
Definition mail_search : M (string * list string) :=
  modify (add_call Search) ;;;
  match imap_search env with
  | Ok r => ret r
  | Raise e => raise e
  end.

Definition mail_close : M unit :=
  modify (add_call Close) ;;; guard (imap_close_raises env) IMAP4Error.

Definition mail_logout : M unit :=
  modify (add_call Logout) ;;; guard (imap_logout_raises env) IMAP4Error.

(** the [for] loop of lines 109-115 with its [break] *)
Fixpoint process_batch (email_ids : list string) (processed_count : nat)
  : M nat :=
  match email_ids with
  | [] => ret processed_count
  | email_id :: rest =>
      let* st := get in
      if max_errors <=? error_count st then
        logger ERROR "Reached maximum error limit, stopping" ;;;
        ret processed_count
      else
        let* ok := process_single_email email_id in
        process_batch rest (if ok then processed_count + 1 else processed_count)
  end.

(** [process_emails]; the value returned is [processed_count] when the
    loop was reached, which the source only logs *)
Definition process_emails : M (option nat) :=
  let* mail := connect_to_mailbox in
  if negb mail then
    logger ERROR "Cannot proceed without IMAP connection" ;;; ret None
  else
    try_finally
      (try_except
         (let* found := mail_search in
          let '(status, email_ids) := found in
          if negb (String.eqb status "OK") then
            logger WARNING "Email search failed or no new emails" ;;; ret None
          else
            logger INFO ("Found " ++ Text.of_nat (length email_ids)
                         ++ " new emails to process") ;;;
            let* processed_count :=
              process_batch (firstn max_emails_per_session email_ids) 0 in
            logger INFO ("Successfully processed "
                         ++ Text.of_nat processed_count ++ " emails") ;;;
            ret (Some processed_count))
         (fun e => logger ERROR ("Fatal error: " ++ str_exn e) ;;; ret None))
      (try_except (mail_close ;;; mail_logout) (fun _ => ret tt)).

(** ** [search_emails] (lines 257-299) *)

Definition search_emails (query : string) : M (list Hit) :=
  (* line 262, before the [try]: [self.db_conn.execute(...).fetchall()] *)
  let* _c := self_db_conn in
  guard (select_raises env 0) OperationalError ;;;
  try_except
    (let* st := get in
     match db_conn st with
     | None =>
         logger ERROR "Database connection not established" ;;; ret []
     | Some c =>
         let query := Text.lower (Text.strip query) in
         guard (select_raises env 1) OperationalError ;;;
         ret (select_hits (working c) ("%" ++ query ++ "%"))
     end)
    (fun e => logger ERROR ("Search failed: " ++ str_exn e) ;;; ret []).

End Archiver.

(** ** Reference notions used to state the properties *)

(** Header decoding as a whole: every chunk [decode_header] returns is
    decoded with its own charset and the texts are concatenated. *)
Fixpoint decode_all_chunks (env : Env) (chunks : list (decoded * option string))
  : option string :=
  match chunks with
  | [] => Some EmptyString
  | (Str text, _) :: rest =>
      option_map (String.append text) (decode_all_chunks env rest)
  | (Bytes b, encoding) :: rest =>
      match bytes_decode env (encoding_or_utf8 encoding) b with
      | Some text => option_map (String.append text) (decode_all_chunks env rest)
      | None => None
      end
  end.

(** [needle] occurs in [text] up to ASCII case *)
Fixpoint prefix_nocase (needle text : string) : bool :=
  match needle, text with
  | EmptyString, _ => true
  | String c n, String d t => like_char c d && prefix_nocase n t
  | String _ _, EmptyString => false
  end.

Fixpoint contains_nocase (needle text : string) : bool :=
  prefix_nocase needle text
  || match text with
     | EmptyString => false
     | String _ t => contains_nocase needle t
     end.

(** a query without LIKE wildcards *)
Definition no_wildcard (query : string) : Prop :=
  Text.Forall (fun c => c <> "%"%char /\ c <> "_"%char) query.


(** the [Fetch] calls made so far *)
Definition fetched (st : State) : list string :=
  flat_map (fun c => match c with Fetch i => [i] | _ => [] end) (imap st).

(** [m] leaves the observation [f] of the state unchanged *)
Definition preserves {A X} (m : M A) (f : State -> X) : Prop :=
  forall st, f (snd (m st)) = f st.

(** [m] never raises *)
Definition total {A} (m : M A) : Prop :=
  forall st, exists a, fst (m st) = Ok a.

(** the index rows a transaction adds for the keywords, in the order
    given: each row refers to [lastrowid], which then becomes its own
    rowid *)
Fixpoint keyword_rows (db : DB) (lastrowid : nat) (keywords : list string) : DB :=
  match keywords with
  | [] => db
  | keyword :: rest =>
      let (db', rowid) := insert_search_index db lastrowid keyword in
      keyword_rows db' rowid rest
  end.

(** the state in which the batch loop of [process_emails] starts *)
Definition batch_start (found : nat) (st : State) : State :=
  add_log INFO ("Found " ++ Text.of_nat found ++ " new emails to process")
    (add_call Search (add_call Login st)).


(** the second state differs from the first in the log at most *)
Definition log_only (st st' : State) : Prop :=
  db_conn st' = db_conn st /\ error_count st' = error_count st
  /\ files st' = files st /\ dirs st' = dirs st /\ imap st' = imap st.

(** the [except] clause of [process_single_email] *)
Definition count_error (e : exn) : M bool :=
  modify (fun st => set_error_count (error_count st + 1) st) ;;;
  logger ERROR ("Error processing email: " ++ str_exn e) ;;;
  ret false.


(** [m] never lowers the error counter *)
Definition nondecreasing {A} (m : M A) : Prop :=
  forall st, error_count st <= error_count (snd (m st)).

(** successive calls of [process_emails] on the same archiver, each
    against its own mailbox and environment *)
Fixpoint runs (envs : list Env) (st : State)
  : list (result (option nat)) * State :=
  match envs with
  | [] => ([], st)
  | env :: rest =>
      let (r, st1) := process_emails env st in
      let (rs, st2) := runs rest st1 in
      (r :: rs, st2)
  end.

(** a row the query may return for the text [q]: the selected columns
    of a record one of whose fields, or one of whose joined keywords,
    contains [q] up to ASCII case *)
Definition matches (db : DB) (q : string) (h : Hit) : Prop :=
  exists e,
    In e (archived_emails db) /\ h = hit_of e
    /\ (contains_nocase q (e_subject e) = true
        \/ contains_nocase q (e_sender e) = true
        \/ contains_nocase q (e_attachments e) = true
        \/ contains_nocase q (e_date_received e) = true
        \/ exists s, In s (search_index db) /\ s_email_id s = e_id e
                     /\ contains_nocase q (s_keyword s) = true).

(** descending order of the stored date text *)
Definition date_desc (a b : Hit) : Prop := String.leb (date b) (date a) = true.

(** ** Sample environments *)

(** A cooperative environment: nothing fails, headers carry no encoded
    words except the one sample below, the mailbox is empty. *)
Definition sample_decode_header (h : string)
  : result (list (decoded * option string)) :=
  if String.eqb h "Report =?utf-8?q?final?="
  then Ok [(Bytes "Report ", None); (Bytes "final", Some "utf-8")]
  else Ok [(Str h, None)].

Definition quiet : Env :=
  {| decode_header := sample_decode_header;
     bytes_decode := fun _ b => Some b;
     archive_root := "./email_archive";
     delete_after_archive := false;
     imap_connect_raises := false;
     imap_search := Ok ("OK", []);
     imap_fetch := fun _ => Ok ("NO", None);
     imap_store_raises := fun _ => false;
     imap_close_raises := false;
     imap_logout_raises := false;
     today := fun _ => "2024-01-02";
     makedirs_raises := fun _ => false;
     open_raises := fun _ => false;
     sqlite_raises := fun _ _ => false;
     current_timestamp := fun _ => "2024-01-02 10:00:00";
     select_raises := fun _ => false |}.

(** an environment that differs from [quiet] in the mailbox content and
    in the SQLite failures *)
Definition mailbox (ids : list string)
    (fetch : string -> result (string * option Message))
    (raises : string -> nat -> bool) : Env :=
  {| decode_header := sample_decode_header;
     bytes_decode := fun _ b => Some b;
     archive_root := "./email_archive";
     delete_after_archive := false;
     imap_connect_raises := false;
     imap_search := Ok ("OK", ids);
     imap_fetch := fetch;
     imap_store_raises := fun _ => false;
     imap_close_raises := false;
     imap_logout_raises := false;
     today := fun _ => "2024-01-02";
     makedirs_raises := fun _ => false;
     open_raises := fun _ => false;
     sqlite_raises := raises;
     current_timestamp := fun _ => "2024-01-02 10:00:00";
     select_raises := fun _ => false |}.

(** a message with a text body and one PDF attachment *)
Definition report_mail : Message :=
  {| hdr_subject := Some "Quarterly sales report";
     hdr_from := Some "Ann Lee <ann@example.org>";
     hdr_date := Some "Tue, 02 Jan 2024 09:30:00 +0000";
     root :=
       Multipart "multipart/mixed" None None
         [Leaf "text/plain" None None (Some "see attached");
          Leaf "application/pdf"
               (Some "attachment")
               (Some "report final.pdf") (Some "%PDF-1.4")] |}.

(** one unseen message, and every SQL statement succeeds *)
Definition inbox : Env :=
  mailbox ["1"] (fun _ => Ok ("OK", Some report_mail)) (fun _ _ => false).


(** a server on which every FETCH fails *)
Definition broken (ids : list string) : Env :=
  mailbox ids (fun _ => Raise IMAP4Error) (fun _ _ => false).

(** the archiver right after [__init__] on a new database file *)
Definition fresh : State :=
  {| db_conn := Some (connect_db empty_db); error_count := 0; log := [];
     files := ∅; dirs := ∅; imap := [] |}.

(** the store after one message with subject [Plan-B notes] has been
    archived on a new database *)
Definition plan_b_db : DB :=
  Eval vm_compute in
    match
      db_conn (snd (store_email_metadata quiet "7" "Plan-B notes"
                      "ann@example.org" "Tue, 02 Jan 2024 09:30:00 +0000"
                      ["notes.txt"] "./email_archive/2024-01-02/ann/7" fresh))
    with
    | Some c => committed c
    | None => empty_db
    end.

Definition plan_b_archive : State :=
  set_db_conn (Some (connect_db plan_b_db)) fresh.

Definition plan_b_hit : Hit :=
  {| subject := "Plan-B notes"; sender := "ann@example.org";
     date := "Tue, 02 Jan 2024 09:30:00 +0000"; attachments := "notes.txt";
     path := "./email_archive/2024-01-02/ann/7" |}.

(** ** [load_config] and the start-up check (lines 321-329, 370-375) *)

(** the dictionary [load_config] returns; [os.getenv] without default
    gives [None] for a variable that is not set *)
Record Config : Type := {
  cfg_imap_server : string;
  cfg_email : option string;
  cfg_password : option string;
  cfg_archive_root : string;
  cfg_delete_after_archive : bool
}.

(** [os.getenv(name, default)] on the process environment *)
Definition getenv (environ : gmap string string) (name default : string)
  : string :=
  match environ !! name with
  | Some value => value
  | None => default
  end.

Definition load_config (environ : gmap string string) : Config :=
  {| cfg_imap_server := getenv environ "IMAP_SERVER" "imap.gmail.com";
     cfg_email := environ !! "EMAIL";
     cfg_password := environ !! "PASSWORD";
     cfg_archive_root := getenv environ "ARCHIVE_ROOT" "./email_archive";
     cfg_delete_after_archive :=
       String.eqb (Text.lower (getenv environ "DELETE_AFTER_ARCHIVE" "False"))
         "true" |}.

(** the truth value of an [Optional[str]] *)
Definition truthy (o : option string) : bool :=
  match o with
  | Some (String _ _) => true
  | Some EmptyString | None => false
  end.

(** lines 372-374: the configuration, or [None] when the check raises
    [ValueError] and the program prints that it failed to start *)
Definition checked_config (environ : gmap string string) : option Config :=
  let config := load_config environ in
  if truthy (cfg_email config) && truthy (cfg_password config)
  then Some config else None.

(** ** [cleanup_mailbox] (lines 301-319) *)

(** the calls made on a session, those of the clean-up included *)
Inductive SessionCall : Type :=
| Imap (c : ImapCall)
| SelectInbox
| Expunge.

(** the archiver and the session as the clean-up sees them *)
Record Wide : Type := {
  narrow : State;
  session : list SessionCall
}.

(** what the clean-up asks of its environment beyond [Env]: whether the
    second SELECT and the EXPUNGE raise, and what [input] returns *)
Record CleanupEnv : Type := {
  select_fails : bool;
  answer : result string;
  expunge_fails : bool
}.

Definition W (A : Type) : Type := Wide -> result A * Wide.

Definition wret {A} (a : A) : W A := fun w => (Ok a, w).

Definition wbind {A B} (m : W A) (k : A -> W B) : W B :=
  fun w => match m w with
           | (Ok a, w') => k a w'
           | (Raise e, w') => (Raise e, w')
           end.

Definition wtry_except {A} (m : W A) (h : exn -> W A) : W A :=
  fun w => match m w with
           | (Ok a, w') => (Ok a, w')
           | (Raise e, w') => h e w'
           end.

Definition wtry_finally {A} (m : W A) (f : W unit) : W A :=
  fun w => match m w with
           | (r, w') => match f w' with
                        | (Ok _, w'') => (r, w'')
                        | (Raise e, w'') => (Raise e, w'')
                        end
           end.

(** a computation of the archiver run inside the clean-up: the calls
    it adds to the session are added here as well *)
Definition lift {A} (m : M A) : W A :=
  fun w =>
    let (r, st') := m (narrow w) in
    (r, {| narrow := st';
           session := session w
             ++ List.map Imap (skipn (length (imap (narrow w))) (imap st')) |}).

(** a call that only the clean-up makes *)
Definition session_call (c : SessionCall) (raises : bool) : W unit :=
  fun w =>
    (if raises then Raise IMAP4Error else Ok tt,
     {| narrow := narrow w; session := session w ++ [c] |}).

(** [input("Permanently delete all marked emails? (y/n): ")] *)
Definition input (cenv : CleanupEnv) : W string :=
  fun w => (answer cenv, w).

(** the [try] block of the clean-up with its [except] clause *)
Definition cleanup_confirm (cenv : CleanupEnv) : W unit :=
  wtry_except
    (wbind (session_call SelectInbox (select_fails cenv)) (fun _ =>
     wbind (input cenv) (fun response =>
     if String.eqb (Text.lower response) "y" then
       wbind (session_call Expunge (expunge_fails cenv)) (fun _ =>
       lift (logger INFO "Mailbox cleanup completed"))
     else lift (logger INFO "Cleanup canceled by user"))))
    (fun e => lift (logger ERROR ("Cleanup failed: " ++ str_exn e))).

Definition cleanup_mailbox (env : Env) (cenv : CleanupEnv) : W unit :=
  wbind (lift (connect_to_mailbox env)) (fun mail =>
  if negb mail then wret tt
  else
    wtry_finally (cleanup_confirm cenv)
      (wbind (lift (mail_close env)) (fun _ => lift (mail_logout env)))).

(** ** Notions for the further properties *)

(** [m] keeps the property [P] of the state *)
Definition keeps {A} (P : State -> Prop) (m : M A) : Prop :=
  forall st, P st -> P (snd (m st)).

(** Rows are told apart by their identifiers: no two records share a
    message identifier or a rowid, no two index rows share a rowid. *)
Definition distinct_rows (db : DB) : Prop :=
  NoDup (List.map e_email_id (archived_emails db))
  /\ NoDup (List.map e_id (archived_emails db))
  /\ NoDup (List.map s_id (search_index db)).

(** [db'] holds the rows of [db], unchanged and in front *)
Definition grown_from (db db' : DB) : Prop :=
  (exists es, archived_emails db' = archived_emails db ++ es)
  /\ (exists ss, search_index db' = search_index db ++ ss).

(** the archiver holds an open connection with no pending transaction
    on a database grown from [db0] whose rows are distinct *)
Definition store_grown_from (db0 : DB) (st : State) : Prop :=
  exists db, db_conn st = Some (connect_db db)
             /\ distinct_rows db /\ grown_from db0 db.

(** the identifiers the search of a run returns *)
Definition search_ids (env : Env) : list string :=
  match imap_search env with
  | Ok (_, ids) => ids
  | Raise _ => []
  end.







(** a server whose SEARCH answers [NO] *)
Definition search_refused : Env :=
  {| decode_header := sample_decode_header;
     bytes_decode := fun _ b => Some b;
     archive_root := "./email_archive";
     delete_after_archive := false;
     imap_connect_raises := false;
     imap_search := Ok ("NO", ["1"]);
     imap_fetch := fun _ => Ok ("OK", Some report_mail);
     imap_store_raises := fun _ => false;
     imap_close_raises := false;
     imap_logout_raises := false;
     today := fun _ => "2024-01-02";
     makedirs_raises := fun _ => false;
     open_raises := fun _ => false;
     sqlite_raises := fun _ _ => false;
     current_timestamp := fun _ => "2024-01-02 10:00:00";
     select_raises := fun _ => false |}.


(** does the clean-up get as far as the prompt and read a yes there? *)
Definition confirmed (cenv : CleanupEnv) : bool :=
  negb (select_fails cenv)
  && match answer cenv with
     | Ok response => String.eqb (Text.lower response) "y"
     | Raise _ => false
     end.

(** the session and archiver before a clean-up *)
Definition at_rest : Wide := {| narrow := fresh; session := [] |}.

(** the user types [Y] at the prompt; nothing fails *)
Definition says_yes : CleanupEnv :=
  {| select_fails := false; answer := Ok "Y"; expunge_fails := false |}.

(** the user types [yes] *)
Definition says_yes_in_full : CleanupEnv :=
  {| select_fails := false; answer := Ok "yes"; expunge_fails := false |}.

(** a server on which CLOSE fails *)
Definition close_fails : Env :=
  {| decode_header := sample_decode_header;
     bytes_decode := fun _ b => Some b;
     archive_root := "./email_archive";
     delete_after_archive := false;
     imap_connect_raises := false;
     imap_search := Ok ("OK", []);
     imap_fetch := fun _ => Ok ("NO", None);
     imap_store_raises := fun _ => false;
     imap_close_raises := true;
     imap_logout_raises := false;
     today := fun _ => "2024-01-02";
     makedirs_raises := fun _ => false;
     open_raises := fun _ => false;
     sqlite_raises := fun _ _ => false;
     current_timestamp := fun _ => "2024-01-02 10:00:00";
     select_raises := fun _ => false |}.

(** * Properties *)

(** ** Text *)

Example split_ws_ex : Text.split_ws "  Q3   Report " = ["Q3"; "Report"].
Proof. reflexivity. Qed.

Example strip_ex : Text.strip "  a b  " = "a b".
Proof. reflexivity. Qed.

Example split_last_ex : Text.split_last "/" "application/pdf" = "pdf".
Proof. reflexivity. Qed.

Example lower_ex : Text.lower "Q3 Report" = "q3 report".
Proof. reflexivity. Qed.

Example of_nat_ex : Text.of_nat 12 = "12".
Proof. reflexivity. Qed.

Example os_path_join_ex :
  os_path_join "./email_archive" ["2024-01-02"; "ann"; "17"]
  = "./email_archive/2024-01-02/ann/17".
Proof. reflexivity. Qed.

Lemma take_length n s : String.length (Text.take n s) <= n.
Proof.
  revert s. induction n as [|n IH]; intros [|c r]; simpl; try lia.
  specialize (IH r). lia.
Qed.

Lemma take_Forall P n s : Text.Forall P s -> Text.Forall P (Text.take n s).
Proof.
  revert s. induction n as [|n IH]; intros [|c r]; simpl; auto.
  intros [Hc Hr]. split; auto.
Qed.

Lemma map_Forall (P : ascii -> Prop) f s :
  (forall c, P (f c)) -> Text.Forall P (Text.map f s).
Proof. intros Hf. induction s as [|c r IH]; simpl; auto. Qed.

(** ** The sanitizers *)

Example safe_filename_ex : safe_filename "report final.pdf" = "report_final.pdf".
Proof. reflexivity. Qed.

Example safe_sender_ex : safe_sender "Ann Lee <ann@example.org>" = "Ann_Lee__ann".
Proof. reflexivity. Qed.

Lemma sanitize_char_safe allowed c : safe_char allowed (sanitize_char allowed c).
Proof.
  unfold sanitize_char, safe_char.
  destruct (Text.isalnum c) eqn:Ha; simpl; [now left|].
  destruct (existsb (Ascii.eqb c) allowed) eqn:Hin; [|now right; right].
  right; left. apply existsb_exists in Hin as (d & Hd & Heq).
  apply Ascii.eqb_eq in Heq. now subst.
Qed.

Lemma sanitize_spec allowed maxlen text :
  String.length (sanitize allowed maxlen text) <= maxlen
  /\ Text.Forall (safe_char allowed) (sanitize allowed maxlen text).
Proof.
  unfold sanitize. split; [apply take_length|].
  apply take_Forall, map_Forall, sanitize_char_safe.
Qed.

(** C6.  Whatever the text, the sender-derived path segment has at most
    50 characters, each alphanumeric, one of [@ . - _] or the substitute
    [_]; the attachment filename has at most 100 characters, each
    alphanumeric, one of [. - _] or [_].  Both sanitizers are total
    functions of the text. *)
Theorem sanitizers_bounded_and_safe (text : string) :
  (String.length (safe_sender text) <= 50
   /\ Text.Forall (safe_char sender_chars) (safe_sender text))
  /\ (String.length (safe_filename text) <= 100
      /\ Text.Forall (safe_char filename_chars) (safe_filename text)).
Proof. split; apply sanitize_spec. Qed.

(** ** Reasoning about computations *)

Section Frames.

Context {X : Type} (f : State -> X).

Lemma preserves_ret {A} (a : A) : preserves (ret a) f.
Proof. intros st. reflexivity. Qed.

Lemma preserves_raise {A} e : preserves (@raise A e) f.
Proof. intros st. reflexivity. Qed.

Lemma preserves_get : preserves get f.
Proof. intros st. reflexivity. Qed.

Lemma preserves_modify g : (forall st, f (g st) = f st) -> preserves (modify g) f.
Proof. intros Hg st. apply Hg. Qed.

Lemma preserves_guard b e : preserves (guard b e) f.
Proof. intros st. destruct b; reflexivity. Qed.

Lemma preserves_bind {A B} (m : M A) (k : A -> M B) :
  preserves m f -> (forall a, preserves (k a) f) -> preserves (bind m k) f.
Proof.
  intros Hm Hk st. unfold bind. specialize (Hm st).
  destruct (m st) as [[a|e] st1]; simpl in *; [|exact Hm].
  rewrite Hk. exact Hm.
Qed.

Lemma preserves_try_except {A} (m : M A) h :
  preserves m f -> (forall e, preserves (h e) f) -> preserves (try_except m h) f.
Proof.
  intros Hm Hh st. unfold try_except. specialize (Hm st).
  destruct (m st) as [[a|e] st1]; simpl in *; [exact Hm|].
  rewrite Hh. exact Hm.
Qed.

Lemma preserves_try_finally {A} (m : M A) fin :
  preserves m f -> preserves fin f -> preserves (try_finally m fin) f.
Proof.
  intros Hm Hf st. unfold try_finally. specialize (Hm st).
  destruct (m st) as [r st1]. specialize (Hf st1).
  destruct (fin st1) as [[u|e] st2]; simpl in *; congruence.
Qed.

Lemma preserves_self_db_conn : preserves self_db_conn f.
Proof. intros st. unfold self_db_conn. destruct (db_conn st); reflexivity. Qed.

End Frames.

Lemma total_ret {A} (a : A) : total (ret a).
Proof. intros st. now exists a. Qed.

Lemma total_modify g : total (modify g).
Proof. intros st. now exists tt. Qed.

Lemma total_logger l msg : total (logger l msg).
Proof. apply total_modify. Qed.

Lemma total_bind {A B} (m : M A) (k : A -> M B) :
  total m -> (forall a, total (k a)) -> total (bind m k).
Proof.
  intros Hm Hk st. unfold bind. destruct (Hm st) as [a Ha].
  destruct (m st) as [[a'|e] st1]; simpl in Ha; [|discriminate].
  apply Hk.
Qed.

Lemma total_try_except {A} (m : M A) h :
  (forall e, total (h e)) -> total (try_except m h).
Proof.
  intros Hh st. unfold try_except.
  destruct (m st) as [[a|e] st1]; [now exists a|apply Hh].
Qed.

(** the steps shared by the frame proofs *)
Ltac frame_step :=
  lazymatch goal with
  | |- preserves (bind _ _) _ => apply preserves_bind; [|intros ?]
  | |- preserves (try_except _ _) _ => apply preserves_try_except; [|intros ?]
  | |- preserves (try_finally _ _) _ => apply preserves_try_finally
  | |- preserves (ret _) _ => apply preserves_ret
  | |- preserves (raise _) _ => apply preserves_raise
  | |- preserves get _ => apply preserves_get
  | |- preserves self_db_conn _ => apply preserves_self_db_conn
  | |- preserves (guard _ _) _ => apply preserves_guard
  | |- preserves (logger _ _) _ => apply preserves_modify; intros ?; reflexivity
  | |- preserves (modify _) _ => apply preserves_modify; intros ?; reflexivity
  | |- preserves (match ?x with _ => _ end) _ => destruct x
  end.

Ltac frame := repeat frame_step.

Ltac total_step :=
  lazymatch goal with
  | |- total (bind _ _) => apply total_bind; [|intros ?]
  | |- total (try_except _ _) => apply total_try_except; intros ?
  | |- total (ret _) => apply total_ret
  | |- total (logger _ _) => apply total_logger
  | |- total (modify _) => apply total_modify
  | |- total (match ?x with _ => _ end) => destruct x
  end.

Ltac totality := repeat total_step.

(** a state is its own record *)
Lemma set_db_conn_same st : set_db_conn (db_conn st) st = st.
Proof. now destruct st. Qed.

Lemma with_working_same c : with_working c (working c) = c.
Proof. now destruct c. Qed.

(** ** Header decoding *)

Section HeaderFacts.

Variable env : Env.

Lemma safe_decode_header_total h : total (safe_decode_header env h).
Proof. unfold safe_decode_header. destruct h; totality. Qed.

Lemma safe_decode_header_frame {X} (f : State -> X) h :
  (forall l msg st, f (add_log l msg st) = f st) ->
  preserves (safe_decode_header env h) f.
Proof.
  intros Hlog. unfold safe_decode_header.
  destruct h as [h|]; [|frame].
  apply preserves_try_except.
  - destruct (decode_header env h) as [[|[[b|t] enc] rest]|e]; frame.
  - intros e. apply preserves_bind; [|intros ?; frame].
    apply preserves_modify. intros st. apply Hlog.
Qed.

(** a missing header *)
Lemma safe_decode_header_none st :
  safe_decode_header env None st = (Ok "(No Header)", st).
Proof. reflexivity. Qed.

(** the fallback: when [decode_header] raises, the raw text cut to 100
    characters is returned and a warning is logged *)
Lemma safe_decode_header_fallback h e st :
  decode_header env h = Raise e ->
  safe_decode_header env (Some h) st
  = (Ok (Text.take 100 h),
     add_log WARNING ("Header decode failed: " ++ str_exn e) st).
Proof.
  intros H. unfold safe_decode_header, try_except. now rewrite H.
Qed.

(** an unknown charset takes the same fallback *)
Lemma safe_decode_header_unknown_charset h b enc rest st :
  decode_header env h = Ok ((Bytes b, enc) :: rest) ->
  bytes_decode env (encoding_or_utf8 enc) b = None ->
  safe_decode_header env (Some h) st
  = (Ok (Text.take 100 h),
     add_log WARNING ("Header decode failed: LookupError") st).
Proof.
  intros H Hb. unfold safe_decode_header, try_except. now rewrite H, Hb.
Qed.

(** only the first chunk is ever looked at *)
Lemma safe_decode_header_first_chunk h chunk rest rest' st env' :
  decode_header env h = Ok (chunk :: rest) ->
  decode_header env' h = Ok (chunk :: rest') ->
  bytes_decode env' = bytes_decode env ->
  safe_decode_header env (Some h) st = safe_decode_header env' (Some h) st.
Proof.
  intros H H' Hb. unfold safe_decode_header, try_except.
  rewrite H, H', Hb. reflexivity.
Qed.

End HeaderFacts.

(** C7.  On the header [Report =?utf-8?q?final?=], which
    [decode_header] splits into the plain chunk [Report ] and the
    encoded word [final], [safe_decode_header] returns the first chunk
    only, whereas decoding every chunk gives [Report final]; nothing is
    logged, so this is not the fallback path. *)
Theorem safe_decode_header_drops_later_chunks :
  safe_decode_header quiet (Some "Report =?utf-8?q?final?=") fresh
    = (Ok "Report ", fresh)
  /\ option_map (decode_all_chunks quiet)
       (match decode_header quiet "Report =?utf-8?q?final?=" with
        | Ok chunks => Some chunks
        | Raise _ => None
        end)
     = Some (Some "Report final").
Proof. split; reflexivity. Qed.

(** ** The metadata transaction *)

Section StoreFacts.

Variable env : Env.

Lemma execute_eq {A} raises (stmt : DB -> result (DB * A)) st c :
  db_conn st = Some c ->
  execute raises stmt st
  = if raises then (Raise OperationalError, st)
    else match stmt (working c) with
         | Ok (db, a) => (Ok a, set_db_conn (Some (with_working c db)) st)
         | Raise e => (Raise e, st)
         end.
Proof.
  intros H. unfold execute, bind, self_db_conn, guard. rewrite H.
  destruct raises; [reflexivity|]. simpl.
  destruct (stmt (working c)) as [[db a]|e]; reflexivity.
Qed.

Lemma keyword_rows_cons db lastrowid kw rest :
  keyword_rows db lastrowid (kw :: rest)
  = keyword_rows (fst (insert_search_index db lastrowid kw))
      (snd (insert_search_index db lastrowid kw)) rest.
Proof. reflexivity. Qed.

Lemma insert_keywords_cons email_id k lastrowid kw rest st c :
  db_conn st = Some c ->
  insert_keywords env email_id k lastrowid (kw :: rest) st
  = if sqlite_raises env email_id k then (Raise OperationalError, st)
    else insert_keywords env email_id (S k)
           (snd (insert_search_index (working c) lastrowid kw)) rest
           (set_db_conn
              (Some (with_working c
                 (fst (insert_search_index (working c) lastrowid kw)))) st).
Proof.
  intros Hc. cbn [insert_keywords]. unfold bind.
  rewrite (execute_eq _ _ _ _ Hc).
  destruct (sqlite_raises env email_id k); reflexivity.
Qed.

(** the keyword loop either completes, leaving exactly [keyword_rows] in
    the open transaction, or raises with the transaction still open *)
Lemma insert_keywords_spec email_id kws : forall k lastrowid st c,
  db_conn st = Some c ->
  (exists last,
     insert_keywords env email_id k lastrowid kws st
     = (Ok last,
        set_db_conn (Some (with_working c (keyword_rows (working c) lastrowid kws))) st))
  \/ (exists e db,
        insert_keywords env email_id k lastrowid kws st
        = (Raise e, set_db_conn (Some (with_working c db)) st)).
Proof.
  induction kws as [|kw rest IH]; intros k lastrowid st c Hc.
  - left. exists lastrowid. simpl. unfold ret.
    now rewrite with_working_same, <- Hc, set_db_conn_same.
  - rewrite (insert_keywords_cons _ _ _ _ _ _ _ Hc), keyword_rows_cons.
    destruct (sqlite_raises env email_id k).
    + right. exists OperationalError, (working c).
      now rewrite with_working_same, <- Hc, set_db_conn_same.
    + set (r := insert_search_index (working c) lastrowid kw).
      set (st1 := set_db_conn _ st).
      destruct (IH (S k) (snd r) st1 (with_working c (fst r)) eq_refl)
        as [[last Hok]|(e & db' & Hraise)].
      * left. exists last. rewrite Hok. reflexivity.
      * right. exists e, db'. rewrite Hraise. reflexivity.
Qed.

(** without a failing statement the loop completes *)
Lemma insert_keywords_ok email_id kws : forall k lastrowid st c,
  db_conn st = Some c ->
  (forall j, sqlite_raises env email_id j = false) ->
  exists last,
    insert_keywords env email_id k lastrowid kws st
    = (Ok last,
       set_db_conn (Some (with_working c (keyword_rows (working c) lastrowid kws))) st).
Proof.
  induction kws as [|kw rest IH]; intros k lastrowid st c Hc Hno.
  - exists lastrowid. simpl. unfold ret.
    now rewrite with_working_same, <- Hc, set_db_conn_same.
  - rewrite (insert_keywords_cons _ _ _ _ _ _ _ Hc), keyword_rows_cons, Hno.
    set (r := insert_search_index (working c) lastrowid kw).
    set (st1 := set_db_conn _ st).
    destruct (IH (S k) (snd r) st1 (with_working c (fst r)) eq_refl Hno) as [last Hok].
    exists last. rewrite Hok. reflexivity.
Qed.

(** the [except] clause: roll back and log *)
Lemma rollback_and_log msg st c :
  db_conn st = Some c ->
  bind db_rollback (fun _ => logger ERROR msg) st
  = (Ok tt, add_log ERROR msg (set_db_conn (Some (rollback c)) st)).
Proof.
  intros Hc. unfold db_rollback, logger, bind, self_db_conn, modify.
  now rewrite Hc.
Qed.

Lemma db_commit_eq raises st c :
  db_conn st = Some c ->
  db_commit raises st
  = if raises then (Raise OperationalError, st)
    else (Ok tt, set_db_conn (Some (commit c)) st).
Proof.
  intros Hc. unfold db_commit, bind, self_db_conn, guard, modify.
  rewrite Hc. destruct raises; reflexivity.
Qed.

(** [store_email_metadata], statement by statement *)
Lemma store_email_metadata_eq email_id subj sndr date_received atts
    archive_path st :
  store_email_metadata env email_id subj sndr date_received atts archive_path st
  = match
      (let '(r, st1) :=
         execute (sqlite_raises env email_id 0)
           (fun db => insert_archived_email db email_id subj sndr
                        date_received (Text.join ", " atts) archive_path
                        (current_timestamp env email_id)) st in
       match r with
       | Raise e => (Raise e, st1)
       | Ok lastrowid =>
           let '(r2, st2) :=
             insert_keywords env email_id 1 lastrowid
               (elements (extract_keywords subj sndr)) st1 in
           match r2 with
           | Raise e => (Raise e, st2)
           | Ok _ =>
               db_commit (sqlite_raises env email_id
                 (S (length (elements (extract_keywords subj sndr))))) st2
           end
       end)
    with
    | (Ok u, st') => (Ok u, st')
    | (Raise e, st') =>
        bind db_rollback
          (fun _ => logger ERROR ("Database error: " ++ str_exn e)) st'
    end.
Proof.
  unfold store_email_metadata, try_except, bind.
  destruct (execute _ _ st) as [[lastrowid|e] st1]; [|reflexivity].
  destruct (insert_keywords _ _ _ _ _ st1) as [[last|e] st2]; reflexivity.
Qed.

(** The two outcomes of [store_email_metadata] on an open connection:
    everything committed, or everything rolled back and one error line
    logged.  Either way the call returns [None] normally. *)
Lemma store_email_metadata_outcome email_id subj sndr date_received atts
    archive_path st c :
  db_conn st = Some c ->
  (exists db1 rowid,
     insert_archived_email (working c) email_id subj sndr date_received
       (Text.join ", " atts) archive_path (current_timestamp env email_id)
     = Ok (db1, rowid)
     /\ store_email_metadata env email_id subj sndr date_received atts
          archive_path st
        = (Ok tt,
           set_db_conn
             (Some (connect_db
                (keyword_rows db1 rowid (elements (extract_keywords subj sndr)))))
             st))
  \/ (exists e,
        store_email_metadata env email_id subj sndr date_received atts
          archive_path st
        = (Ok tt,
           add_log ERROR ("Database error: " ++ str_exn e)
             (set_db_conn (Some (connect_db (committed c))) st))).
Proof.
  intros Hc. rewrite !store_email_metadata_eq, (execute_eq _ _ _ _ Hc).
  destruct (sqlite_raises env email_id 0).
  { right. exists OperationalError. now rewrite (rollback_and_log _ _ _ Hc). }
  destruct (insert_archived_email _ _ _ _ _ _ _ _) as [[db1 rowid]|e] eqn:Hins.
  2:{ right. exists e. now rewrite (rollback_and_log _ _ _ Hc). }
  set (st1 := set_db_conn _ st).
  set (kws := elements (extract_keywords subj sndr)).
  destruct (insert_keywords_spec email_id kws 1 rowid st1 (with_working c db1) eq_refl)
    as [[last Hok]|(e & db' & Hraise)].
  - rewrite Hok. erewrite db_commit_eq by reflexivity.
    destruct (sqlite_raises env email_id (S (length kws))).
    + right. exists OperationalError.
      now erewrite rollback_and_log by reflexivity.
    + left. exists db1, rowid. split; reflexivity.
  - rewrite Hraise. right. exists e.
    now erewrite rollback_and_log by reflexivity.
Qed.

(** with no failing statement and a new identifier, it commits *)
Lemma store_email_metadata_commits email_id subj sndr date_received atts
    archive_path st c :
  db_conn st = Some c ->
  (forall j, sqlite_raises env email_id j = false) ->
  existsb (fun e => String.eqb (e_email_id e) email_id)
    (archived_emails (working c)) = false ->
  exists db1 rowid,
    insert_archived_email (working c) email_id subj sndr date_received
      (Text.join ", " atts) archive_path (current_timestamp env email_id)
    = Ok (db1, rowid)
    /\ store_email_metadata env email_id subj sndr date_received atts
         archive_path st
       = (Ok tt,
          set_db_conn
            (Some (connect_db
               (keyword_rows db1 rowid (elements (extract_keywords subj sndr)))))
            st).
Proof.
  intros Hc Hno Hnew.
  destruct (insert_archived_email (working c) email_id subj sndr date_received
      (Text.join ", " atts) archive_path (current_timestamp env email_id))
    as [[db1 rowid]|e] eqn:Hins.
  2:{ unfold insert_archived_email in Hins. now rewrite Hnew in Hins. }
  exists db1, rowid. split; [reflexivity|].
  rewrite store_email_metadata_eq, (execute_eq _ _ _ _ Hc), Hno, Hins.
  set (st1 := set_db_conn _ st).
  set (kws := elements (extract_keywords subj sndr)).
  destruct (insert_keywords_ok email_id kws 1 rowid st1 (with_working c db1) eq_refl Hno)
    as [last Hok].
  rewrite Hok. erewrite db_commit_eq by reflexivity. rewrite Hno.
  reflexivity.
Qed.

End StoreFacts.

(** ** The keyword rows *)

Lemma keyword_rows_emails kws : forall db lastrowid,
  archived_emails (keyword_rows db lastrowid kws) = archived_emails db
  /\ seq_archived_emails (keyword_rows db lastrowid kws) = seq_archived_emails db.
Proof.
  induction kws as [|kw rest IH]; intros db lastrowid; [now split|].
  rewrite keyword_rows_cons. destruct (IH (fst (insert_search_index db lastrowid kw))
    (snd (insert_search_index db lastrowid kw))) as [H1 H2].
  now rewrite H1, H2.
Qed.

(** one new row per keyword, in the order given *)
Lemma keyword_rows_keywords kws : forall db lastrowid,
  List.map s_keyword (search_index (keyword_rows db lastrowid kws))
  = List.map s_keyword (search_index db) ++ kws.
Proof.
  induction kws as [|kw rest IH]; intros db lastrowid.
  - simpl. now rewrite app_nil_r.
  - rewrite keyword_rows_cons, IH. simpl.
    now rewrite List.map_app, <- app_assoc.
Qed.

(** the old rows stay in front *)
Lemma keyword_rows_prefix kws : forall db lastrowid,
  exists rows,
    search_index (keyword_rows db lastrowid kws) = search_index db ++ rows
    /\ length rows = length kws.
Proof.
  induction kws as [|kw rest IH]; intros db lastrowid.
  - exists []. simpl. now rewrite app_nil_r.
  - rewrite keyword_rows_cons.
    destruct (IH (fst (insert_search_index db lastrowid kw))
                 (snd (insert_search_index db lastrowid kw))) as (rows & Hrows & Hlen).
    rewrite Hrows. simpl. rewrite <- app_assoc. simpl.
    eexists. split; [reflexivity|]. simpl. now rewrite Hlen.
Qed.

(** Which record each new row refers to: the first one refers to
    [lastrowid], every later one to the rowid of the row inserted just
    before it. *)
Lemma keyword_rows_refs kws : forall db lastrowid,
  exists rows,
    search_index (keyword_rows db lastrowid kws) = search_index db ++ rows
    /\ List.map s_email_id rows
       = firstn (length kws) (lastrowid :: List.map s_id rows).
Proof.
  induction kws as [|kw rest IH]; intros db lastrowid.
  - exists []. simpl. now rewrite app_nil_r.
  - rewrite keyword_rows_cons.
    destruct (IH (fst (insert_search_index db lastrowid kw))
                 (snd (insert_search_index db lastrowid kw))) as (rows & Hrows & Hrefs).
    rewrite Hrows. simpl. rewrite <- app_assoc. simpl.
    eexists. split; [reflexivity|]. simpl. now rewrite Hrefs.
Qed.

(** the keyword set holds exactly the qualifying tokens *)
Lemma elem_of_add_words text (ks : gset string) (w : string) :
  w ∈ add_words text ks
  <-> w ∈ ks
      \/ exists word, In word (Text.split_ws (Text.lower text))
                      /\ w = clean_word word /\ reasonable_length w = true.
Proof.
  unfold add_words. generalize (Text.split_ws (Text.lower text)) as words.
  intros words. revert ks. induction words as [|word rest IH]; intros ks; simpl.
  - split; [now left|]. intros [H|(x & [] & _)]. exact H.
  - rewrite IH. destruct (reasonable_length (clean_word word)) eqn:Hlen.
    + rewrite elem_of_union, elem_of_singleton. split.
      * intros [[->|H]|(x & Hx & Hw)]; [right; now exists word; auto|now left|].
        right. exists x. tauto.
      * intros [H|(x & [<-|Hx] & Hw & Hr)]; [left; now right|left; now left|].
        right. now exists x.
    + split.
      * intros [H|(x & Hx & Hw)]; [now left|right; exists x; tauto].
      * intros [H|(x & [<-|Hx] & Hw & Hr)]; [now left| |right; now exists x].
        subst w. congruence.
Qed.

Lemma elem_of_extract_keywords subj sndr (w : string) :
  w ∈ extract_keywords subj sndr
  <-> exists text word,
        (text = subj \/ text = sndr)
        /\ In word (Text.split_ws (Text.lower text))
        /\ w = clean_word word /\ reasonable_length w = true.
Proof.
  unfold extract_keywords. rewrite !elem_of_add_words. split.
  - intros [[H|(x & Hx)]|(x & Hx)].
    + now apply not_elem_of_empty in H.
    + exists subj, x. tauto.
    + exists sndr, x. tauto.
  - intros (text & x & [->| ->] & Hx); [left; right|right]; now exists x.
Qed.

(** A committed insert adds one index row per distinct qualifying token
    of subject and sender. *)
Lemma committed_keywords subj sndr db1 rowid :
  let db := keyword_rows db1 rowid (elements (extract_keywords subj sndr)) in
  exists rows,
    search_index db = search_index db1 ++ rows
    /\ NoDup (List.map s_keyword rows)
    /\ forall w, In w (List.map s_keyword rows)
                 <-> w ∈ extract_keywords subj sndr.
Proof.
  intros db. subst db.
  destruct (keyword_rows_prefix (elements (extract_keywords subj sndr)) db1 rowid)
    as (rows & Hrows & _).
  pose proof (keyword_rows_keywords (elements (extract_keywords subj sndr)) db1 rowid)
    as Hk.
  rewrite Hrows, List.map_app in Hk. apply app_inv_head in Hk.
  exists rows. split; [exact Hrows|]. rewrite Hk. split.
  - apply NoDup_elements.
  - intros w. rewrite <- list_elem_of_In. apply elem_of_elements.
Qed.

Example keywords_ex :
  forall w, w ∈ extract_keywords "Q3 Report" "Ann Lee <ann@example.org>"
            <-> In w ["report"; "ann"; "lee"; "annexampleorg"].
Proof.
  intros w. rewrite <- list_elem_of_In, <- elem_of_elements.
  vm_compute elements. rewrite !list_elem_of_In. simpl. tauto.
Qed.

(** C2.  On a new database, storing a message whose subject has the three
    tokens [alpha], [beta] and [gamma] inserts record 1 and three index
    rows whose [email_id] columns are 1, 1 and 2: the third row refers
    to the rowid of the second index row, not to the record. *)
Theorem third_keyword_row_misses_the_record :
  exists db,
    store_email_metadata quiet "1" "alpha beta gamma" "x" "d" ["a.pdf"] "p" fresh
    = (Ok tt, set_db_conn (Some (connect_db db)) fresh)
    /\ List.map e_id (archived_emails db) = [1]
    /\ List.map s_id (search_index db) = [1; 2; 3]
    /\ List.map s_email_id (search_index db) = [1; 1; 2].
Proof. eexists. vm_compute. repeat split. Qed.

(** ** Extraction of the attachments *)

Section PipelineFacts.

Variable env : Env.

Lemma log_only_refl st : log_only st st.
Proof. now repeat split. Qed.

Lemma log_only_add_log l msg st : log_only st (add_log l msg st).
Proof. now repeat split. Qed.


Lemma try_except_bind_ok {A B} (m : M A) (k : A -> M B) h a st st1 :
  m st = (Ok a, st1) ->
  try_except (bind m k) h st = try_except (k a) h st1.
Proof. intros H. unfold try_except, bind. now rewrite H. Qed.

Lemma bind_ok {A B} (m : M A) (k : A -> M B) a st st1 :
  m st = (Ok a, st1) -> bind m k st = k a st1.
Proof. intros H. unfold bind. now rewrite H. Qed.




End PipelineFacts.

(** ** After the extraction: record, flag, error counter *)

Section AfterExtraction.

Variable env : Env.

Lemma count_error_frame {X} (f : State -> X) e :
  (forall l msg st, f (add_log l msg st) = f st) ->
  (forall n st, f (set_error_count n st) = f st) ->
  preserves (count_error e) f.
Proof.
  intros Hlog Herr. unfold count_error.
  apply preserves_bind; [apply preserves_modify; intros; apply Herr|intros _].
  apply preserves_bind; [apply preserves_modify; intros; apply Hlog|intros _].
  apply preserves_ret.
Qed.







End AfterExtraction.

(** ** Records and attachments *)





(** ** Atomicity of the metadata insert *)




(** ** Duplicate identifiers *)




(** ** Searching before the connection exists *)

(** C9.  Without a [db_conn] attribute, [search_emails] raises
    [AttributeError] to its caller: line 262 reads the attribute before
    the [try] block and its [hasattr] test are entered.  Nothing is
    logged and no list is returned. *)
Theorem search_without_connection_raises env query st :
  search_emails env query (set_db_conn None st)
  = (Raise AttributeError, set_db_conn None st).
Proof. reflexivity. Qed.

(** with a connection, the [hasattr] branch is never taken *)
Lemma search_emails_connected env query st c :
  db_conn st = Some c ->
  search_emails env query st
  = if select_raises env 0 then (Raise OperationalError, st)
    else if select_raises env 1
         then (Ok [], add_log ERROR "Search failed: OperationalError" st)
         else (Ok (select_hits (working c)
                     ("%" ++ Text.lower (Text.strip query) ++ "%")), st).
Proof.
  intros Hc.
  unfold search_emails, try_except, bind, self_db_conn, guard, get, logger,
    modify, ret, raise.
  rewrite Hc. destruct (select_raises env 0); [reflexivity|]. simpl.
  rewrite Hc. destruct (select_raises env 1); reflexivity.
Qed.

(** ** The error counter *)

Section Counter.

Variable env : Env.

Lemma nondecreasing_preserves {A} (m : M A) :
  preserves m error_count -> nondecreasing m.
Proof. intros H st. rewrite H. lia. Qed.

Lemma nondecreasing_bind {A B} (m : M A) (k : A -> M B) :
  nondecreasing m -> (forall a, nondecreasing (k a)) -> nondecreasing (bind m k).
Proof.
  intros Hm Hk st. unfold bind. specialize (Hm st).
  destruct (m st) as [[a|e] st1]; simpl in *; [|exact Hm].
  specialize (Hk a st1). lia.
Qed.

Lemma nondecreasing_try_except {A} (m : M A) h :
  nondecreasing m -> (forall e, nondecreasing (h e)) ->
  nondecreasing (try_except m h).
Proof.
  intros Hm Hh st. unfold try_except. specialize (Hm st).
  destruct (m st) as [[a|e] st1]; simpl in *; [exact Hm|].
  specialize (Hh e st1). lia.
Qed.

Lemma nondecreasing_try_finally {A} (m : M A) fin :
  nondecreasing m -> nondecreasing fin -> nondecreasing (try_finally m fin).
Proof.
  intros Hm Hf st. unfold try_finally. specialize (Hm st).
  destruct (m st) as [r st1]. specialize (Hf st1).
  destruct (fin st1) as [[u|e] st2]; simpl in *; lia.
Qed.

Lemma execute_frame {A X} (f : State -> X) raises (stmt : DB -> result (DB * A)) :
  (forall c st, f (set_db_conn c st) = f st) -> preserves (execute raises stmt) f.
Proof.
  intros Hdb. unfold execute. frame.
  all: try (apply preserves_modify; intros; apply Hdb).
Qed.

Lemma insert_keywords_frame {X} (f : State -> X) email_id kws :
  (forall c st, f (set_db_conn c st) = f st) ->
  forall k lastrowid, preserves (insert_keywords env email_id k lastrowid kws) f.
Proof.
  intros Hdb. induction kws as [|kw rest IH]; intros k lastrowid;
    cbn [insert_keywords]; [apply preserves_ret|].
  apply preserves_bind; [now apply execute_frame|intros rowid; apply IH].
Qed.

Lemma store_email_metadata_frame {X} (f : State -> X) email_id subj sndr d atts p :
  (forall c st, f (set_db_conn c st) = f st) ->
  (forall l msg st, f (add_log l msg st) = f st) ->
  preserves (store_email_metadata env email_id subj sndr d atts p) f.
Proof.
  intros Hdb Hlog. unfold store_email_metadata.
  apply preserves_try_except.
  - apply preserves_bind; [now apply execute_frame|intros rowid].
    apply preserves_bind; [now apply insert_keywords_frame|intros _].
    unfold db_commit. frame. apply preserves_modify. intros. apply Hdb.
  - intros e. unfold db_rollback, logger. frame.
    all: apply preserves_modify; intros; first [apply Hdb|apply Hlog].
Qed.

Lemma process_parts_frame {X} (f : State -> X) dir parts :
  (forall l msg st, f (add_log l msg st) = f st) ->
  (forall p c st, f (add_file p c st) = f st) ->
  forall atts, preserves (process_parts env dir atts parts) f.
Proof.
  intros Hlog Hfile. induction parts as [|part rest IH]; intros atts;
    cbn [process_parts]; [apply preserves_ret|].
  apply preserves_bind; [|intros a; apply IH].
  unfold process_part.
  destruct (is_multipart part); [apply preserves_ret|].
  destruct (negb _); [apply preserves_ret|].
  apply preserves_bind; [now apply safe_decode_header_frame|intros name].
  unfold write_file, logger. frame.
  all: apply preserves_modify; intros; first [apply Hlog|apply Hfile].
Qed.

(** the [try] block of [process_single_email] leaves the counter alone;
    only the [except] clause adds one *)
Lemma process_single_email_nondecreasing email_id :
  nondecreasing (process_single_email env email_id).
Proof.
  unfold process_single_email. apply nondecreasing_try_except.
  - apply nondecreasing_preserves.
    apply preserves_bind; [unfold mail_fetch; frame|intros [status msg_data]].
    destruct (negb _); [unfold logger; frame|].
    apply preserves_bind; [frame|intros m].
    apply preserves_bind; [now apply safe_decode_header_frame|intros subj].
    apply preserves_bind; [now apply safe_decode_header_frame|intros sndr].
    apply preserves_bind; [now apply safe_decode_header_frame|intros d].
    apply preserves_bind; [unfold os_makedirs; frame|intros _].
    apply preserves_bind; [now apply process_parts_frame|intros saved].
    destruct saved; [unfold logger; frame|].
    apply preserves_bind; [now apply store_email_metadata_frame|intros _].
    unfold mail_store_deleted. frame.
  - intros e st. unfold bind, modify, logger, ret. simpl. lia.
Qed.

Lemma process_single_email_total email_id : total (process_single_email env email_id).
Proof. unfold process_single_email. totality. Qed.

(** the loop, one iteration at a time *)
Lemma process_batch_cons email_id rest n st :
  process_batch env (email_id :: rest) n st
  = if max_errors <=? error_count st
    then (Ok n, add_log ERROR "Reached maximum error limit, stopping" st)
    else match process_single_email env email_id st with
         | (Ok ok, st1) => process_batch env rest (if ok then n + 1 else n) st1
         | (Raise e, st1) => (Raise e, st1)
         end.
Proof.
  cbn [process_batch]. unfold bind, get.
  destruct (max_errors <=? error_count st); reflexivity.
Qed.

(** with the budget used up, the loop stops before its first message *)
Lemma process_batch_exhausted ids n st :
  max_errors <= error_count st ->
  exists st', process_batch env ids n st = (Ok n, st') /\ log_only st st'.
Proof.
  intros H. destruct ids as [|email_id rest].
  - exists st. split; [reflexivity|apply log_only_refl].
  - rewrite process_batch_cons.
    apply Nat.leb_le in H. rewrite H.
    eexists. split; [reflexivity|apply log_only_add_log].
Qed.

Lemma process_batch_total ids : forall n, total (process_batch env ids n).
Proof.
  induction ids as [|email_id rest IH]; intros n st; [now exists n|].
  rewrite process_batch_cons. destruct (max_errors <=? error_count st).
  - now exists n.
  - destruct (process_single_email_total email_id st) as [ok Hok].
    destruct (process_single_email env email_id st) as [[ok'|e] st1];
      simpl in Hok; [|discriminate].
    apply IH.
Qed.

Lemma process_batch_nondecreasing ids : forall n,
  nondecreasing (process_batch env ids n).
Proof.
  induction ids as [|email_id rest IH]; intros n st; [simpl; lia|].
  rewrite process_batch_cons. destruct (max_errors <=? error_count st).
  - simpl. lia.
  - pose proof (process_single_email_nondecreasing email_id st) as H1.
    destruct (process_single_email env email_id st) as [[ok|e] st1];
      simpl in *; [|exact H1].
    specialize (IH (if ok then n + 1 else n) st1). lia.
Qed.

(** Once the counter has reached the threshold after some identifiers,
    the identifiers that follow them change nothing but the log. *)
Lemma process_batch_stops ids1 ids2 : forall n st n1 st1,
  process_batch env ids1 n st = (Ok n1, st1) ->
  max_errors <= error_count st1 ->
  exists st2,
    process_batch env (ids1 ++ ids2) n st = (Ok n1, st2) /\ log_only st1 st2.
Proof.
  induction ids1 as [|email_id rest IH]; intros n st n1 st1 Hrun Hmax.
  - injection Hrun as <- <-. now apply process_batch_exhausted.
  - rewrite <- app_comm_cons, process_batch_cons.
    rewrite process_batch_cons in Hrun.
    destruct (max_errors <=? error_count st).
    + injection Hrun as <- <-. eexists. split; [reflexivity|apply log_only_refl].
    + destruct (process_single_email env email_id st) as [[ok|e] sa];
        [|discriminate].
      now apply IH.
Qed.

End Counter.

(** ** Runs of [process_emails] *)

Section Runs.

Variable env : Env.

(** the [finally] clause: [Close], then [Logout] unless closing failed;
    nothing escapes *)
Lemma closing_eq st :
  try_except (bind (mail_close env) (fun _ => mail_logout env))
    (fun _ => ret tt) st
  = (Ok tt,
     if imap_close_raises env then add_call Close st
     else add_call Logout (add_call Close st)).
Proof.
  unfold try_except, bind, mail_close, mail_logout, modify, guard, ret, raise.
  destruct (imap_close_raises env); [reflexivity|].
  destruct (imap_logout_raises env); reflexivity.
Qed.

Lemma try_finally_closing {A} (m : M A) st :
  try_finally m
    (try_except (bind (mail_close env) (fun _ => mail_logout env))
       (fun _ => ret tt)) st
  = (fst (m st),
     if imap_close_raises env then add_call Close (snd (m st))
     else add_call Logout (add_call Close (snd (m st)))).
Proof.
  unfold try_finally. destruct (m st) as [r st1]. now rewrite closing_eq.
Qed.

(** a run that reaches the batch loop *)
Lemma process_emails_batch st ids n st1 :
  imap_connect_raises env = false ->
  imap_search env = Ok ("OK", ids) ->
  process_batch env (firstn max_emails_per_session ids) 0
    (batch_start (length ids) st) = (Ok n, st1) ->
  process_emails env st
  = (Ok (Some n),
     let st2 := add_log INFO ("Successfully processed " ++ Text.of_nat n
                              ++ " emails") st1 in
     if imap_close_raises env then add_call Close st2
     else add_call Logout (add_call Close st2)).
Proof.
  intros Hconn Hsearch Hbatch.
  unfold process_emails.
  assert (E0 : connect_to_mailbox env st = (Ok true, add_call Login st)).
  { unfold connect_to_mailbox, try_except, bind, modify, guard, ret.
    now rewrite Hconn. }
  rewrite (bind_ok _ _ _ _ _ E0). cbn [negb].
  rewrite try_finally_closing.
  assert (E1 : mail_search env (add_call Login st)
               = (Ok ("OK", ids), add_call Search (add_call Login st))).
  { unfold mail_search, bind, modify. now rewrite Hsearch. }
  rewrite !(try_except_bind_ok _ _ _ _ _ _ E1).
  cbv beta iota delta [negb String.eqb Ascii.eqb Bool.eqb].
  assert (E2 : logger INFO ("Found " ++ Text.of_nat (length ids)
                            ++ " new emails to process")
                 (add_call Search (add_call Login st))
               = (Ok tt, batch_start (length ids) st)) by reflexivity.
  rewrite !(try_except_bind_ok _ _ _ _ _ _ E2).
  rewrite !(try_except_bind_ok _ _ _ _ _ _ Hbatch).
  reflexivity.
Qed.

(** a run that starts with the budget used up makes no [Fetch] *)
Lemma process_emails_exhausted st :
  max_errors <= error_count st ->
  exists r st',
    process_emails env st = (Ok r, st')
    /\ (r = None \/ r = Some 0)
    /\ fetched st' = fetched st
    /\ error_count st' = error_count st
    /\ db_conn st' = db_conn st /\ files st' = files st.
Proof.
  intros Hmax.
  destruct (imap_connect_raises env) eqn:Hconn.
  { eexists _, _. split.
    - unfold process_emails, connect_to_mailbox, try_except, bind, modify,
        guard, ret, raise, logger. rewrite Hconn. reflexivity.
    - simpl. unfold fetched. simpl. rewrite flat_map_app. simpl.
      rewrite app_nil_r. repeat split; auto. }
  destruct (imap_search env) as [[status ids]|e] eqn:Hsearch.
  2:{ eexists _, _. split.
      - unfold process_emails. rewrite (bind_ok _ _ true _ (add_call Login st)).
        2:{ unfold connect_to_mailbox, try_except, bind, modify, guard, ret.
            now rewrite Hconn. }
        cbn [negb]. rewrite try_finally_closing.
        unfold mail_search, try_except, bind, modify, ret, raise, logger.
        rewrite Hsearch. reflexivity.
      - unfold fetched.
        destruct (imap_close_raises env); simpl;
          rewrite !flat_map_app; simpl; rewrite !app_nil_r;
          repeat split; auto. }
  destruct (String.eqb status "OK") eqn:Hstatus.
  2:{ eexists _, _. split.
      - unfold process_emails. rewrite (bind_ok _ _ true _ (add_call Login st)).
        2:{ unfold connect_to_mailbox, try_except, bind, modify, guard, ret.
            now rewrite Hconn. }
        cbn [negb]. rewrite try_finally_closing.
        unfold mail_search, try_except, bind, modify, ret, raise, logger.
        rewrite Hsearch. cbv beta iota. rewrite Hstatus. reflexivity.
      - unfold fetched.
        destruct (imap_close_raises env); simpl;
          rewrite !flat_map_app; simpl; rewrite !app_nil_r;
          repeat split; auto. }
  apply String.eqb_eq in Hstatus. subst status.
  destruct (process_batch_exhausted env (firstn max_emails_per_session ids) 0
              (batch_start (length ids) st) Hmax)
    as (st1 & Hbatch & (L1 & L2 & L3 & L4 & L5)).
  rewrite (process_emails_batch st ids 0 st1 Hconn Hsearch Hbatch).
  eexists _, _. split; [reflexivity|]. split; [now right|].
  unfold fetched.
  destruct (imap_close_raises env); simpl; rewrite L1, L2, L3, L5; simpl;
    rewrite !flat_map_app; simpl; rewrite !app_nil_r; repeat split; auto.
Qed.

Lemma process_emails_nondecreasing : nondecreasing (process_emails env).
Proof.
  unfold process_emails.
  apply nondecreasing_bind.
  { apply nondecreasing_preserves. unfold connect_to_mailbox, logger. frame. }
  intros [|]; cbn [negb].
  2:{ apply nondecreasing_preserves. unfold logger. frame. }
  apply nondecreasing_try_finally.
  2:{ apply nondecreasing_preserves. unfold mail_close, mail_logout. frame. }
  apply nondecreasing_try_except.
  2:{ intros e. apply nondecreasing_preserves. unfold logger. frame. }
  apply nondecreasing_bind.
  { apply nondecreasing_preserves. unfold mail_search. frame. }
  intros [status ids]. destruct (negb _).
  { apply nondecreasing_preserves. unfold logger. frame. }
  apply nondecreasing_bind.
  { apply nondecreasing_preserves. unfold logger. frame. }
  intros _. apply nondecreasing_bind; [apply process_batch_nondecreasing|].
  intros n. apply nondecreasing_preserves. unfold logger. frame.
Qed.

(** Whatever happens after a successful connection, the run returns
    normally and its last calls on the session are [Close] and, unless
    closing failed, [Logout]. *)
Lemma process_emails_always_closes st :
  imap_connect_raises env = false ->
  exists r st1,
    process_emails env st
    = (Ok r,
       if imap_close_raises env then add_call Close st1
       else add_call Logout (add_call Close st1)).
Proof.
  intros Hconn. unfold process_emails.
  rewrite (bind_ok _ _ true _ (add_call Login st)).
  2:{ unfold connect_to_mailbox, try_except, bind, modify, guard, ret.
      now rewrite Hconn. }
  cbn [negb]. rewrite try_finally_closing.
  match goal with
  | |- context [fst (try_except ?m ?h ?s)] =>
      destruct (total_try_except m h
                  (fun e => total_bind _ _ (total_logger _ _)
                              (fun _ => total_ret _)) s) as [r Hr];
      rewrite Hr; exists r, (snd (try_except m h s))
  end.
  reflexivity.
Qed.

(** without a connection the run ends at once *)
Lemma process_emails_not_connected st :
  imap_connect_raises env = true ->
  process_emails env st
  = (Ok None,
     add_log ERROR "Cannot proceed without IMAP connection"
       (add_log ERROR "IMAP connection failed: IMAP4Error"
          (add_call Login st))).
Proof.
  intros Hconn.
  unfold process_emails, connect_to_mailbox, try_except, bind, modify, guard,
    ret, raise, logger.
  now rewrite Hconn.
Qed.

(** C5.  Let the search return [ids1 ++ ids2], and let the error counter
    have reached the threshold once the loop has gone through [ids1].
    Then the run returns normally, and after the calls made for [ids1]
    the only calls on the session are [Close] and, unless closing
    itself failed, [Logout]: no identifier of [ids2] is fetched, and
    store, files and counter stay as they were after [ids1]. *)
Theorem error_threshold_stops_batch_then_closes st ids1 ids2 n1 st1 :
  imap_connect_raises env = false ->
  imap_search env = Ok ("OK", ids1 ++ ids2) ->
  length ids1 <= max_emails_per_session ->
  process_batch env ids1 0 (batch_start (length (ids1 ++ ids2)) st)
    = (Ok n1, st1) ->
  max_errors <= error_count st1 ->
  exists st',
    process_emails env st = (Ok (Some n1), st')
    /\ imap st' = imap st1
                  ++ Close :: (if imap_close_raises env then [] else [Logout])
    /\ db_conn st' = db_conn st1 /\ files st' = files st1
    /\ error_count st' = error_count st1.
Proof.
  intros Hconn Hsearch Hlen Hrun Hmax.
  destruct (process_batch_stops env ids1
              (firstn (max_emails_per_session - length ids1) ids2)
              0 _ n1 st1 Hrun Hmax)
    as (st2 & Hall & (L1 & L2 & L3 & L4 & L5)).
  assert (Hfirst : firstn max_emails_per_session (ids1 ++ ids2)
                   = ids1 ++ firstn (max_emails_per_session - length ids1) ids2).
  { rewrite firstn_app, firstn_all2 by exact Hlen. reflexivity. }
  rewrite <- Hfirst in Hall.
  rewrite (process_emails_batch st _ n1 st2 Hconn Hsearch Hall).
  eexists. split; [reflexivity|].
  destruct (imap_close_raises env); cbn; rewrite L1, L2, L3, L5;
    repeat split; try reflexivity; now rewrite <- app_assoc.
Qed.

End Runs.

(** seven identifiers on a server where every FETCH fails: the fifth
    failure ends the batch, identifiers 6 and 7 are never fetched *)
Lemma error_threshold_stops_batch_then_closes_witness :
  exists st',
    process_emails (broken ["1"; "2"; "3"; "4"; "5"; "6"; "7"]) fresh
    = (Ok (Some 0), st')
    /\ imap st' = [Login; Search; Fetch "1"; Fetch "2"; Fetch "3"; Fetch "4";
                   Fetch "5"; Close; Logout]
    /\ error_count st' = 5.
Proof.
  destruct (error_threshold_stops_batch_then_closes
              (broken ["1"; "2"; "3"; "4"; "5"; "6"; "7"]) fresh
              ["1"; "2"; "3"; "4"; "5"] ["6"; "7"] 0
              (snd (process_batch (broken ["1"; "2"; "3"; "4"; "5"; "6"; "7"])
                      ["1"; "2"; "3"; "4"; "5"] 0 (batch_start 7 fresh)))
              eq_refl eq_refl)
    as (st' & Hrun & Himap & _ & _ & Herr).
  - vm_compute. lia.
  - vm_compute. reflexivity.
  - vm_compute. lia.
  - exists st'. split; [exact Hrun|]. split.
    + rewrite Himap. vm_compute. reflexivity.
    + rewrite Herr. vm_compute. reflexivity.
Defined.

(** C10.  Over any sequence of runs on the same archiver the error
    counter never goes down; and if it has reached the threshold, every
    later run, whatever its mailbox, returns without having fetched a
    single message. *)
Theorem error_count_only_accumulates (envs : list Env) (st : State) :
  error_count st <= error_count (snd (runs envs st))
  /\ (max_errors <= error_count st ->
      Forall (fun r => r = Ok None \/ r = Ok (Some 0)) (fst (runs envs st))
      /\ fetched (snd (runs envs st)) = fetched st
      /\ error_count (snd (runs envs st)) = error_count st).
Proof.
  revert st. induction envs as [|env rest IH]; intros st.
  - simpl. split; [lia|]. intros _. repeat split. constructor.
  - cbn [runs].
    pose proof (process_emails_nondecreasing env st) as Hmono.
    destruct (process_emails env st) as [r st1] eqn:Hrun. simpl in Hmono.
    destruct (IH st1) as [Hle Hrest].
    destruct (runs rest st1) as [rs st2]. simpl in *.
    split; [lia|]. intros Hmax.
    destruct (process_emails_exhausted env st Hmax)
      as (r' & st1' & Hrun' & Hr & Hf & He & _).
    rewrite Hrun in Hrun'. injection Hrun' as -> ->.
    destruct Hrest as (Hall & Hf2 & He2); [lia|].
    split; [|split; congruence].
    constructor; [|exact Hall]. destruct Hr as [->| ->]; auto.
Qed.

(** after the seven failing fetches above, a second run against the
    sample mailbox fetches nothing *)
Lemma error_count_only_accumulates_witness :
  let st := snd (process_emails (broken ["1"; "2"; "3"; "4"; "5"; "6"; "7"]) fresh) in
  fetched (snd (runs [inbox; inbox] st)) = fetched st
  /\ error_count (snd (runs [inbox; inbox] st)) = 5.
Proof.
  cbv zeta.
  destruct (proj2 (error_count_only_accumulates [inbox; inbox]
              (snd (process_emails (broken ["1"; "2"; "3"; "4"; "5"; "6"; "7"]) fresh))))
    as (_ & Hf & He).
  - vm_compute. lia.
  - split; [exact Hf|]. rewrite He. vm_compute. reflexivity.
Defined.

(** ** The search query *)

Lemma like_percent p text :
  like (String "%" p) text
  = like p text
    || match text with
       | EmptyString => false
       | String _ t => like (String "%" p) t
       end.
Proof. destruct text; reflexivity. Qed.

Lemma like_any text : like "%" text = true.
Proof.
  induction text as [|c t IH]; [reflexivity|].
  rewrite like_percent, IH. apply orb_true_r.
Qed.

Lemma like_literal c p text :
  c <> "%"%char -> c <> "_"%char ->
  like (String c p) text
  = match text with
    | String d t => like_char c d && like p t
    | EmptyString => false
    end.
Proof.
  intros H1 H2. cbn [like].
  apply Ascii.eqb_neq in H1. apply Ascii.eqb_neq in H2. rewrite H1, H2.
  reflexivity.
Qed.

(** a pattern without wildcards followed by [%] matches the texts it is
    a prefix of *)
Lemma like_prefix q : no_wildcard q ->
  forall text, like (q ++ "%") text = prefix_nocase q text.
Proof.
  induction q as [|c q IH]; intros Hq text.
  - apply like_any.
  - destruct Hq as [[H1 H2] Hq].
    change (String.append (String c q) "%")
      with (String c (String.append q "%")).
    rewrite (like_literal _ _ _ H1 H2).
    destruct text as [|d t]; [reflexivity|]. cbn [prefix_nocase].
    now rewrite IH.
Qed.

(** [%q%] matches the texts that contain [q] *)
Lemma like_contains q text : no_wildcard q ->
  like ("%" ++ q ++ "%") text = contains_nocase q text.
Proof.
  intros Hq.
  change (String.append "%" (String.append q "%"))
    with (String "%" (String.append q "%")).
  induction text as [|d t IH].
  - rewrite like_percent, (like_prefix q Hq). cbn [contains_nocase]. reflexivity.
  - rewrite like_percent, (like_prefix q Hq), IH. reflexivity.
Qed.

Lemma rev_onto_Forall P s : forall acc,
  Text.Forall P s -> Text.Forall P acc -> Text.Forall P (Text.rev_onto s acc).
Proof.
  induction s as [|c r IH]; intros acc Hs Hacc; [exact Hacc|].
  destruct Hs as [Hc Hr]. apply IH; [exact Hr|]. now split.
Qed.

Lemma lstrip_Forall P s : Text.Forall P s -> Text.Forall P (Text.lstrip s).
Proof.
  induction s as [|c r IH]; intros Hs; [exact I|].
  cbn [Text.lstrip]. destruct (Text.isspace c); [|exact Hs].
  apply IH. now destruct Hs.
Qed.

Lemma strip_Forall P s : Text.Forall P s -> Text.Forall P (Text.strip s).
Proof.
  intros Hs. unfold Text.strip, Text.rev.
  apply rev_onto_Forall; [|exact I]. apply lstrip_Forall.
  apply rev_onto_Forall; [|exact I]. now apply lstrip_Forall.
Qed.

Lemma lower_char_no_wildcard c :
  c <> "%"%char /\ c <> "_"%char ->
  Text.lower_char c <> "%"%char /\ Text.lower_char c <> "_"%char.
Proof.
  destruct c as [[] [] [] [] [] [] [] []]; vm_compute; intros [H1 H2];
    split; congruence.
Qed.

Lemma lower_no_wildcard s : no_wildcard s -> no_wildcard (Text.lower s).
Proof.
  unfold no_wildcard, Text.lower.
  induction s as [|c r IH]; intros Hs; [exact I|].
  destruct Hs as [Hc Hr]. split; [now apply lower_char_no_wildcard|now apply IH].
Qed.

(** the query text that reaches SQLite has no wildcard either *)
Lemma query_no_wildcard query :
  no_wildcard query -> no_wildcard (Text.lower (Text.strip query)).
Proof. intros H. now apply lower_no_wildcard, strip_Forall. Qed.

(** *** ORDER BY *)

Lemma insert_desc_perm h l : Permutation (insert_desc h l) (h :: l).
Proof.
  induction l as [|x r IH]; [reflexivity|].
  cbn [insert_desc]. destruct (String.leb (date x) (date h)); [reflexivity|].
  rewrite IH. apply perm_swap.
Qed.

Lemma order_by_date_desc_perm l : Permutation (order_by_date_desc l) l.
Proof.
  induction l as [|h r IH]; [reflexivity|].
  cbn [order_by_date_desc fold_right].
  rewrite insert_desc_perm. now apply perm_skip.
Qed.

Lemma insert_desc_hd h l x :
  HdRel date_desc x l -> date_desc x h -> HdRel date_desc x (insert_desc h l).
Proof.
  intros Hl Hh. destruct l as [|y r]; cbn [insert_desc]; [now constructor|].
  destruct (String.leb (date y) (date h)); constructor; auto.
  now inversion Hl.
Qed.

Lemma insert_desc_sorted h l :
  Sorted date_desc l -> Sorted date_desc (insert_desc h l).
Proof.
  induction l as [|x r IH]; intros Hs; cbn [insert_desc].
  - repeat constructor.
  - destruct (String.leb (date x) (date h)) eqn:Hle.
    + constructor; [exact Hs|]. constructor. exact Hle.
    + inversion Hs as [|? ? Hr Hhd]; subst.
      constructor; [now apply IH|].
      apply insert_desc_hd; [exact Hhd|].
      unfold date_desc.
      destruct (String.leb_total (date x) (date h)) as [H|H]; congruence.
Qed.

Lemma order_by_date_desc_sorted l : Sorted date_desc (order_by_date_desc l).
Proof.
  induction l as [|h r IH]; [constructor|].
  cbn [order_by_date_desc fold_right]. now apply insert_desc_sorted.
Qed.

Example order_by_date_desc_ex :
  List.map date
    (order_by_date_desc
       [ {| subject := "a"; sender := "s"; date := "Mon, 01 Jan 2024";
            attachments := "f"; path := "p" |};
         {| subject := "b"; sender := "s"; date := "Tue, 02 Jan 2023";
            attachments := "f"; path := "p" |} ])
  = ["Tue, 02 Jan 2023"; "Mon, 01 Jan 2024"].
Proof. reflexivity. Qed.

(** *** The joined rows and the WHERE clause *)

Lemma in_left_join db e so :
  In (e, so) (left_join db)
  <-> In e (archived_emails db)
      /\ match so with
         | Some s => In s (search_index db) /\ s_email_id s = e_id e
         | None => List.filter (fun s => s_email_id s =? e_id e) (search_index db) = []
         end.
Proof.
  unfold left_join. rewrite in_flat_map. split.
  - intros (e' & He' & Hin).
    destruct (List.filter _ (search_index db)) as [|s0 rows] eqn:Hf.
    + destruct Hin as [Heq|[]]. injection Heq as <- <-. now split.
    + apply in_map_iff in Hin as (s & Heq & Hs). injection Heq as <- <-.
      split; [exact He'|]. rewrite <- Hf in Hs.
      apply filter_In in Hs as [Hs Hid]. split; [exact Hs|].
      now apply Nat.eqb_eq in Hid.
  - intros [He Hso]. exists e. split; [exact He|].
    destruct so as [s|].
    + destruct Hso as [Hs Hid].
      assert (Hin : In s (List.filter (fun s => s_email_id s =? e_id e)
                            (search_index db))).
      { apply filter_In. split; [exact Hs|]. now apply Nat.eqb_eq. }
      destruct (List.filter _ (search_index db)) as [|s0 rows]; [destruct Hin|].
      apply in_map_iff. now exists s.
    + rewrite Hso. now left.
Qed.

(** every record has at least one joined row *)
Lemma left_join_covers db e :
  In e (archived_emails db) -> exists so, In (e, so) (left_join db).
Proof.
  intros He.
  destruct (List.filter (fun s => s_email_id s =? e_id e) (search_index db))
    as [|s rows] eqn:Hf.
  - exists None. apply in_left_join. now split.
  - exists (Some s). apply in_left_join. split; [exact He|].
    assert (Hin : In s (List.filter (fun s => s_email_id s =? e_id e)
                          (search_index db))) by (rewrite Hf; now left).
    apply filter_In in Hin as [Hs Hid]. split; [exact Hs|].
    now apply Nat.eqb_eq in Hid.
Qed.

(** For a text without wildcards the query selects exactly the rows
    that contain it. *)
Lemma select_all_matches db q h :
  no_wildcard q ->
  In h (select_all db ("%" ++ q ++ "%")) <-> matches db q h.
Proof.
  intros Hq. unfold select_all.
  assert (Hperm : forall l, In h (order_by_date_desc l) <-> In h l).
  { intros l. split; apply Permutation_in;
      [apply order_by_date_desc_perm|symmetry; apply order_by_date_desc_perm]. }
  rewrite Hperm, <- list_elem_of_In, elem_of_remove_dups, list_elem_of_In.
  rewrite in_map_iff. unfold matches. split.
  - intros ([e so] & Heq & Hin). cbn [fst] in Heq. subst h.
    apply filter_In in Hin as [Hjoin Hwhere].
    apply in_left_join in Hjoin as [He Hso].
    exists e. split; [exact He|]. split; [reflexivity|].
    unfold where_clause in Hwhere. rewrite !(like_contains q _ Hq) in Hwhere.
    apply orb_true_iff in Hwhere as [Hwhere|Hkw].
    + apply orb_true_iff in Hwhere as [Hwhere|Hd]; [|tauto].
      apply orb_true_iff in Hwhere as [Hwhere|Ha]; [|tauto].
      apply orb_true_iff in Hwhere as [Hs|Hs]; tauto.
    + destruct so as [s|]; [|discriminate].
      rewrite (like_contains q _ Hq) in Hkw. destruct Hso as [Hs Hid].
      right; right; right; right. now exists s.
  - intros (e & He & -> & Hm).
    assert (Hfield : forall so,
              contains_nocase q (e_subject e) = true
              \/ contains_nocase q (e_sender e) = true
              \/ contains_nocase q (e_attachments e) = true
              \/ contains_nocase q (e_date_received e) = true ->
              where_clause ("%" ++ q ++ "%") (e, so) = true).
    { intros so H. unfold where_clause. rewrite !(like_contains q _ Hq).
      destruct H as [-> | [-> | [-> | ->]]]; rewrite ?orb_true_r; reflexivity. }
    destruct Hm as [H|[H|[H|[H|(s & Hs & Hid & Hkw)]]]].
    1-4: destruct (left_join_covers db e He) as [so Hso];
         exists (e, so); (split; [reflexivity|]); apply filter_In;
         (split; [exact Hso|]); apply Hfield; tauto.
    exists (e, Some s). split; [reflexivity|]. apply filter_In. split.
    + apply in_left_join. now split.
    + unfold where_clause. rewrite !(like_contains q _ Hq), Hkw.
      apply orb_true_r.
Qed.

Lemma select_all_sorted db pattern : Sorted date_desc (select_all db pattern).
Proof. apply order_by_date_desc_sorted. Qed.

Lemma select_all_distinct db pattern : NoDup (select_all db pattern).
Proof.
  unfold select_all. rewrite order_by_date_desc_perm. apply NoDup_remove_dups.
Qed.

Lemma firstn_sorted {A} (R : A -> A -> Prop) n : forall l,
  Sorted R l -> Sorted R (firstn n l).
Proof.
  induction n as [|n IH]; intros l Hs; [constructor|].
  destruct l as [|x r]; [constructor|]. cbn [firstn].
  inversion Hs as [|? ? Hr Hhd]; subst. constructor; [now apply IH|].
  destruct n as [|n']; [constructor|].
  destruct r as [|y r']; [constructor|].
  constructor. now inversion Hhd.
Qed.

(** *** [search_emails] *)

Example search_attachment_name_ex :
  fst (search_emails quiet "NOTES.TXT" plan_b_archive) = Ok [plan_b_hit].
Proof. vm_compute. reflexivity. Qed.

Example search_absent_ex :
  fst (search_emails quiet "budget" plan_b_archive) = Ok [].
Proof. vm_compute. reflexivity. Qed.

(** C8 (as stated) fails: the query [plan_b] returns the record whose
    subject is [Plan-B notes], although [plan_b] is not a substring,
    even up to case, of any of its fields or keywords; the [_] of the
    query is read as LIKE's one-character wildcard. *)
Lemma wildcard_query_is_not_a_substring_search :
  fst (search_emails quiet "plan_b" plan_b_archive) = Ok [plan_b_hit]
  /\ ~ matches plan_b_db "plan_b" plan_b_hit.
Proof.
  split; [vm_compute; reflexivity|].
  intros (e & He & _ & Hm).
  unfold plan_b_db in He, Hm. cbn [archived_emails search_index In] in He, Hm.
  destruct He as [<-|[]].
  destruct Hm as [H|[H|[H|[H|(s & Hs & _ & H)]]]];
    try (vm_compute in H; discriminate H).
  repeat (destruct Hs as [<-|Hs]; [vm_compute in H; discriminate H|]).
  destruct Hs.
Qed.

(** C8 (amended).  On an open connection, for a query with no [%] and
    no [_] and when SQLite answers, [search_emails] returns the first
    100 rows of a list that is in descending order of the stored date
    text, has no repeated row, and holds exactly the rows of the records
    one of whose subject, sender, attachments or date, or one of whose
    joined keywords, contains the stripped and lower-cased query up to
    ASCII case. *)
Theorem search_emails_spec env query st c :
  db_conn st = Some c ->
  select_raises env 0 = false ->
  select_raises env 1 = false ->
  no_wildcard query ->
  exists all,
    search_emails env query st = (Ok (firstn 100 all), st)
    /\ length (firstn 100 all) <= 100
    /\ Sorted date_desc all
    /\ NoDup all
    /\ forall h, In h all
                 <-> matches (working c) (Text.lower (Text.strip query)) h.
Proof.
  intros Hc H0 H1 Hq.
  exists (select_all (working c) ("%" ++ Text.lower (Text.strip query) ++ "%")).
  split.
  { rewrite (search_emails_connected env query st c Hc), H0, H1. reflexivity. }
  split; [apply firstn_le_length|].
  split; [apply select_all_sorted|].
  split; [apply select_all_distinct|].
  intros h. apply select_all_matches. now apply query_no_wildcard.
Qed.

(** a query found in the subject only, given with blanks and capitals *)
Lemma search_emails_spec_witness :
  exists all,
    search_emails quiet "  NOTES " plan_b_archive
    = (Ok (firstn 100 all), plan_b_archive)
    /\ forall h, In h all <-> matches plan_b_db "notes" h.
Proof.
  destruct (search_emails_spec quiet "  NOTES " plan_b_archive
              (connect_db plan_b_db) eq_refl eq_refl eq_refl)
    as (all & Hrun & _ & _ & _ & Hall).
  - vm_compute. repeat split; discriminate.
  - exists all. split; [exact Hrun|exact Hall].
Defined.

(** * Further properties *)

(** ** One message, step by step *)

Section MessageSteps.

Variable env : Env.




End MessageSteps.

(** X1.  When the server answers a FETCH with a status other than [OK],
    the message is skipped: the call returns [False], the only effects
    are the [Fetch] call and one warning line, and neither the error
    counter nor the store nor the files change. *)
Theorem fetch_status_not_ok_skips env email_id status data st :
  imap_fetch env email_id = Ok (status, data) ->
  status <> "OK" ->
  process_single_email env email_id st
  = (Ok false,
     add_log WARNING ("Fetch failed for email b'" ++ email_id ++ "'")
       (add_call (Fetch email_id) st)).
Proof.
  intros Hfetch Hstatus. apply String.eqb_neq in Hstatus.
  unfold process_single_email, try_except, mail_fetch, bind, modify, logger, ret.
  rewrite Hfetch. cbv beta iota. rewrite Hstatus. reflexivity.
Qed.

Lemma fetch_status_not_ok_skips_witness :
  fst (process_single_email quiet "9" fresh) = Ok false
  /\ error_count (snd (process_single_email quiet "9" fresh)) = 0.
Proof.
  rewrite (fetch_status_not_ok_skips quiet "9" "NO" None fresh eq_refl).
  - split; reflexivity.
  - discriminate.
Defined.

(** X2.  When the FETCH raises, or answers [OK] without message data,
    the call returns [False] and adds exactly one to the error counter;
    the store, the files and the directories are untouched. *)
Theorem fetch_failure_counts_one_error env email_id st :
  (exists e, imap_fetch env email_id = Raise e)
  \/ imap_fetch env email_id = Ok ("OK", None) ->
  let r := process_single_email env email_id st in
  fst r = Ok false
  /\ error_count (snd r) = error_count st + 1
  /\ db_conn (snd r) = db_conn st /\ files (snd r) = files st
  /\ dirs (snd r) = dirs st
  /\ imap (snd r) = imap st ++ [Fetch email_id].
Proof.
  intros [[e Hfetch]|Hfetch] r; subst r;
    unfold process_single_email, try_except, mail_fetch, bind, modify, logger,
      ret, raise;
    rewrite Hfetch; repeat split; reflexivity.
Qed.

Lemma fetch_failure_counts_one_error_witness :
  error_count (snd (process_single_email (broken ["1"]) "1" fresh)) = 1.
Proof.
  apply (fetch_failure_counts_one_error (broken ["1"]) "1" fresh).
  left. exists IMAP4Error. reflexivity.
Defined.





(** ** Extraction *)

Section Extraction.

Variable env : Env.


End Extraction.



(** ** The sanitizers, further *)




Example absolute_name_ex :
  os_path_join "./email_archive/2024-01-02/ann/1" [safe_filename "/etc/passwd"]
  = "./email_archive/2024-01-02/ann/1/_etc_passwd".
Proof. reflexivity. Qed.

Lemma sanitize_char_idempotent allowed c :
  sanitize_char allowed (sanitize_char allowed c) = sanitize_char allowed c.
Proof.
  unfold sanitize_char.
  destruct (Text.isalnum c || existsb (Ascii.eqb c) allowed) eqn:H.
  - now rewrite H.
  - destruct (Text.isalnum "_" || existsb (Ascii.eqb "_"%char) allowed);
      reflexivity.
Qed.

Lemma take_map f n s : Text.take n (Text.map f s) = Text.map f (Text.take n s).
Proof.
  revert s. induction n as [|n IH]; intros [|c r]; cbn; try reflexivity.
  now rewrite IH.
Qed.

Lemma take_take n s : Text.take n (Text.take n s) = Text.take n s.
Proof.
  revert s. induction n as [|n IH]; intros [|c r]; cbn; try reflexivity.
  now rewrite IH.
Qed.

Lemma map_map_idempotent f s :
  (forall c, f (f c) = f c) -> Text.map f (Text.map f s) = Text.map f s.
Proof.
  intros Hf. induction s as [|c r IH]; cbn; [reflexivity|]. now rewrite Hf, IH.
Qed.

Lemma sanitize_idempotent allowed n text :
  sanitize allowed n (sanitize allowed n text) = sanitize allowed n text.
Proof.
  unfold sanitize.
  rewrite !take_map, take_take, map_map_idempotent; [reflexivity|].
  apply sanitize_char_idempotent.
Qed.

Lemma split_first_absent sep s :
  Text.Forall (fun c => c <> sep) s -> Text.split_first sep s = s.
Proof.
  induction s as [|c r IH]; [reflexivity|]. intros [Hc Hr]. cbn.
  apply Ascii.eqb_neq in Hc. rewrite Hc. now rewrite IH.
Qed.

Lemma split_first_no_sep sep s :
  Text.Forall (fun c => c <> sep) (Text.split_first sep s).
Proof.
  induction s as [|c r IH]; [exact I|]. cbn.
  destruct (Ascii.eqb c sep) eqn:Hc; [exact I|].
  split; [now apply Ascii.eqb_neq|exact IH].
Qed.

Lemma sanitize_char_not_at c :
  c <> "@"%char -> sanitize_char sender_chars c <> "@"%char.
Proof.
  intros Hc. unfold sanitize_char.
  destruct (Text.isalnum c || existsb (Ascii.eqb c) sender_chars);
    [exact Hc|discriminate].
Qed.

Lemma map_Forall_impl (P Q : ascii -> Prop) f s :
  (forall c, P c -> Q (f c)) -> Text.Forall P s -> Text.Forall Q (Text.map f s).
Proof.
  intros H. induction s as [|c r IH]; [trivial|].
  intros [Hc Hr]. split; auto.
Qed.

(** X7.  Both sanitizers are idempotent: a name that has been sanitized
    is left as it is when sanitized again. *)
Theorem sanitizers_idempotent text :
  safe_filename (safe_filename text) = safe_filename text
  /\ safe_sender (safe_sender text) = safe_sender text.
Proof.
  split; [apply sanitize_idempotent|].
  unfold safe_sender at 2 3. set (local := Text.split_first "@" text).
  unfold safe_sender. rewrite split_first_absent; [apply sanitize_idempotent|].
  unfold sanitize. apply take_Forall.
  apply (map_Forall_impl (fun c => c <> "@"%char)).
  - apply sanitize_char_not_at.
  - apply split_first_no_sep.
Qed.

(** ** Keywords, further *)

Lemma filter_Forall p s : Text.Forall (fun c => p c = true) (Text.filter p s).
Proof.
  induction s as [|c r IH]; [exact I|]. cbn.
  destruct (p c) eqn:Hc; [split; assumption|exact IH].
Qed.

Lemma filter_keeps_Forall (P : ascii -> Prop) p s :
  Text.Forall P s -> Text.Forall P (Text.filter p s).
Proof.
  induction s as [|c r IH]; [trivial|]. intros [Hc Hr]. cbn.
  destruct (p c); [split; auto|auto].
Qed.

Lemma split_ws_from_Forall (P : ascii -> Prop) s : forall cur word,
  Text.Forall P cur -> Text.Forall P s ->
  In word (Text.split_ws_from cur s) -> Text.Forall P word.
Proof.
  induction s as [|c r IH]; intros cur word Hcur Hs Hin; cbn in Hin.
  - destruct cur; [destruct Hin|]. destruct Hin as [<-|[]].
    apply rev_onto_Forall; [exact Hcur|exact I].
  - destruct Hs as [Hc Hr]. destruct (Text.isspace c).
    + destruct cur.
      * now apply (IH EmptyString word).
      * destruct Hin as [<-|Hin]; [|now apply (IH EmptyString word)].
        apply rev_onto_Forall; [exact Hcur|exact I].
    + apply (IH (String c cur) word); [now split|exact Hr|exact Hin].
Qed.

Lemma lower_char_idempotent c :
  Text.lower_char (Text.lower_char c) = Text.lower_char c.
Proof. destruct c as [[] [] [] [] [] [] [] []]; reflexivity. Qed.

Lemma lower_fixed s :
  Text.Forall (fun c => Text.lower_char c = c) s -> Text.lower s = s.
Proof.
  unfold Text.lower. induction s as [|c r IH]; [reflexivity|].
  intros [Hc Hr]. cbn. now rewrite Hc, IH.
Qed.

(** X8.  Every keyword stored for a message has between 3 and 30
    characters, all of them alphanumeric, and is in lower case. *)
Theorem keywords_are_clean_tokens subj sndr (w : string) :
  w ∈ extract_keywords subj sndr ->
  3 <= String.length w <= 30
  /\ Text.Forall (fun c => Text.isalnum c = true) w
  /\ Text.lower w = w.
Proof.
  intros Hw. apply elem_of_extract_keywords in Hw
    as (text & word & _ & Hword & -> & Hlen).
  unfold reasonable_length in Hlen. apply andb_true_iff in Hlen as [H3 H30].
  apply Nat.leb_le in H3. apply Nat.leb_le in H30.
  split; [lia|]. split; [apply filter_Forall|].
  apply lower_fixed. unfold clean_word. apply filter_keeps_Forall.
  apply (split_ws_from_Forall _ (Text.lower text) EmptyString word);
    [exact I| |exact Hword].
  unfold Text.lower. apply map_Forall. apply lower_char_idempotent.
Qed.

Lemma keywords_are_clean_tokens_witness :
  3 <= String.length "report" <= 30
  /\ Text.Forall (fun c => Text.isalnum c = true) "report"
  /\ Text.lower "report" = "report".
Proof.
  apply (keywords_are_clean_tokens "Q3 Report" "Ann Lee <ann@example.org>").
  apply elem_of_elements. vm_compute elements.
  apply list_elem_of_In. right. right. left. reflexivity.
Defined.

(** ** The rows of the store *)

Lemma next_rowid_fresh seq ids : next_rowid seq ids ∉ ids.
Proof.
  intros Hin. apply list_elem_of_In in Hin.
  assert (H : Forall (fun k => k <= list_max ids) ids) by now apply list_max_le.
  rewrite List.Forall_forall in H. specialize (H _ Hin).
  unfold next_rowid in H. lia.
Qed.

Lemma NoDup_snoc_fresh {A} (l : list A) x : NoDup l -> x ∉ l -> NoDup (l ++ [x]).
Proof.
  intros Hl Hx. apply NoDup_app. split; [exact Hl|]. split.
  - intros y Hy Hin. apply list_elem_of_singleton in Hin. now subst.
  - apply NoDup_singleton.
Qed.

(** the keyword loop gives every new index row a rowid of its own *)
Lemma keyword_rows_distinct kws : forall db lastrowid,
  NoDup (List.map s_id (search_index db)) ->
  NoDup (List.map s_id (search_index (keyword_rows db lastrowid kws))).
Proof.
  induction kws as [|kw rest IH]; intros db lastrowid Hnd; [exact Hnd|].
  rewrite keyword_rows_cons. apply IH. cbn [insert_search_index fst search_index].
  rewrite List.map_app. cbn [List.map s_id].
  apply NoDup_snoc_fresh; [exact Hnd|apply next_rowid_fresh].
Qed.

(** a committed transaction keeps the rows distinct and in front *)
Lemma committed_rows db email_id subj sndr d atts p now db1 rowid kws :
  distinct_rows db ->
  insert_archived_email db email_id subj sndr d atts p now = Ok (db1, rowid) ->
  distinct_rows (keyword_rows db1 rowid kws)
  /\ grown_from db (keyword_rows db1 rowid kws).
Proof.
  intros (He & Hi & Hs) Hins.
  unfold insert_archived_email in Hins.
  destruct (existsb _ (archived_emails db)) eqn:Hex; [discriminate|].
  injection Hins as <- <-.
  destruct (keyword_rows_emails kws
              {| archived_emails := archived_emails db ++
                   [{| e_id := next_rowid (seq_archived_emails db)
                                 (List.map e_id (archived_emails db));
                       e_email_id := email_id; e_subject := subj;
                       e_sender := sndr; e_date_received := d;
                       e_attachments := atts; e_keywords := None;
                       e_archive_path := p; e_processed_at := now |}];
                 search_index := search_index db;
                 seq_archived_emails :=
                   next_rowid (seq_archived_emails db)
                     (List.map e_id (archived_emails db));
                 seq_search_index := seq_search_index db |}
              (next_rowid (seq_archived_emails db)
                 (List.map e_id (archived_emails db)))) as [Hemails _].
  cbn [archived_emails] in Hemails.
  split; [split; [|split]|split].
  - rewrite Hemails, List.map_app. cbn [List.map e_email_id].
    apply NoDup_snoc_fresh; [exact He|].
    intros Hin. apply list_elem_of_In, in_map_iff in Hin as (e & Heq & Hin).
    assert (Ht : existsb (fun e => String.eqb (e_email_id e) email_id)
                   (archived_emails db) = true).
    { apply existsb_exists. exists e. split; [exact Hin|]. now apply String.eqb_eq. }
    congruence.
  - rewrite Hemails, List.map_app. cbn [List.map e_id].
    apply NoDup_snoc_fresh; [exact Hi|apply next_rowid_fresh].
  - apply keyword_rows_distinct. exact Hs.
  - eexists. exact Hemails.
  - destruct (keyword_rows_prefix kws
                {| archived_emails := archived_emails db ++
                     [{| e_id := next_rowid (seq_archived_emails db)
                                   (List.map e_id (archived_emails db));
                         e_email_id := email_id; e_subject := subj;
                         e_sender := sndr; e_date_received := d;
                         e_attachments := atts; e_keywords := None;
                         e_archive_path := p; e_processed_at := now |}];
                   search_index := search_index db;
                   seq_archived_emails :=
                     next_rowid (seq_archived_emails db)
                       (List.map e_id (archived_emails db));
                   seq_search_index := seq_search_index db |}
                (next_rowid (seq_archived_emails db)
                   (List.map e_id (archived_emails db))))
      as (rows & Hrows & _).
    exists rows. exact Hrows.
Qed.

Lemma grown_from_refl db : grown_from db db.
Proof. split; exists []; now rewrite app_nil_r. Qed.

Lemma grown_from_trans db1 db2 db3 :
  grown_from db1 db2 -> grown_from db2 db3 -> grown_from db1 db3.
Proof.
  intros [[e1 H1] [s1 G1]] [[e2 H2] [s2 G2]]. split.
  - exists (e1 ++ e2). now rewrite H2, H1, app_assoc.
  - exists (s1 ++ s2). now rewrite G2, G1, app_assoc.
Qed.

(** X9.  [store_email_metadata] never changes or removes a row: from a
    connection without pending transaction on a store whose records
    have distinct message identifiers and whose rows have distinct
    rowids, it leaves such a connection and such a store, with all
    earlier rows unchanged in front of the new ones. *)
Theorem store_email_metadata_keeps_rows env db0 email_id subj sndr
    date_received atts archive_path :
  keeps (store_grown_from db0)
    (store_email_metadata env email_id subj sndr date_received atts archive_path).
Proof.
  intros st (db & Hc & Hd & Hg).
  destruct (store_email_metadata_outcome env email_id subj sndr date_received
              atts archive_path st _ Hc)
    as [(db1 & rowid & Hins & ->)|(e & ->)].
  - cbn [snd connect_db working] in *.
    destruct (committed_rows _ _ _ _ _ _ _ _ _ _
                (elements (extract_keywords subj sndr)) Hd Hins) as [Hd' Hg'].
    eexists. split; [reflexivity|]. split; [exact Hd'|].
    now apply (grown_from_trans db0 db).
  - exists db. split; [reflexivity|]. now split.
Qed.

Lemma store_email_metadata_keeps_rows_witness :
  store_grown_from empty_db
    (snd (store_email_metadata inbox "1" "Quarterly sales report"
            "Ann Lee <ann@example.org>" "Tue, 02 Jan 2024" ["report_final.pdf"]
            "./email_archive/2024-01-02/Ann_Lee__ann/1" fresh)).
Proof.
  apply (store_email_metadata_keeps_rows inbox empty_db).
  exists empty_db. split; [reflexivity|]. split.
  - repeat split; apply NoDup_nil_2.
  - apply grown_from_refl.
Defined.

(** ** Properties kept along a run *)

Section Keeps.

Variable env : Env.
Variable P : State -> Prop.

Lemma keeps_ret {A} (a : A) : keeps P (ret a).
Proof. intros st H. exact H. Qed.

Lemma keeps_raise {A} e : keeps P (@raise A e).
Proof. intros st H. exact H. Qed.

Lemma keeps_guard b e : keeps P (guard b e).
Proof. intros st H. destruct b; exact H. Qed.

Lemma keeps_modify g : (forall st, P st -> P (g st)) -> keeps P (modify g).
Proof. intros Hg st H. now apply Hg. Qed.

Lemma keeps_bind {A B} (m : M A) (k : A -> M B) :
  keeps P m -> (forall a, keeps P (k a)) -> keeps P (bind m k).
Proof.
  intros Hm Hk st H. unfold bind. specialize (Hm st H).
  destruct (m st) as [[a|e] st1]; cbn [snd] in *; [now apply Hk|exact Hm].
Qed.

Lemma keeps_try_except {A} (m : M A) h :
  keeps P m -> (forall e, keeps P (h e)) -> keeps P (try_except m h).
Proof.
  intros Hm Hh st H. unfold try_except. specialize (Hm st H).
  destruct (m st) as [[a|e] st1]; cbn [snd] in *; [exact Hm|now apply Hh].
Qed.

Lemma keeps_try_finally {A} (m : M A) fin :
  keeps P m -> keeps P fin -> keeps P (try_finally m fin).
Proof.
  intros Hm Hf st H. unfold try_finally. specialize (Hm st H).
  destruct (m st) as [r st1]. specialize (Hf st1 Hm).
  destruct (fin st1) as [[u|e] st2]; exact Hf.
Qed.

Hypothesis P_log : forall l msg st, P st -> P (add_log l msg st).
Hypothesis P_file : forall p c st, P st -> P (add_file p c st).
Hypothesis P_dir : forall p st, P st -> P (add_dir p st).
Hypothesis P_count : forall n st, P st -> P (set_error_count n st).

Lemma keeps_logger l msg : keeps P (logger l msg).
Proof. apply keeps_modify. intros st. apply P_log. Qed.

Lemma safe_decode_header_keeps h : keeps P (safe_decode_header env h).
Proof.
  unfold safe_decode_header. destruct h as [h|]; [|apply keeps_ret].
  apply keeps_try_except.
  - destruct (decode_header env h) as [[|[[b|t] enc] rest]|e];
      try apply keeps_raise; try apply keeps_ret.
    destruct (bytes_decode env _ b); [apply keeps_ret|apply keeps_raise].
  - intros e. apply keeps_bind; [apply keeps_logger|intros _; apply keeps_ret].
Qed.

Lemma process_parts_keeps dir parts : forall atts,
  keeps P (process_parts env dir atts parts).
Proof.
  induction parts as [|part rest IH]; intros atts; cbn [process_parts];
    [apply keeps_ret|].
  apply keeps_bind; [|intros a; apply IH].
  unfold process_part.
  destruct (is_multipart part); [apply keeps_ret|].
  destruct (negb _); [apply keeps_ret|].
  apply keeps_bind; [apply safe_decode_header_keeps|intros name].
  apply keeps_try_except.
  - destruct (get_payload part) as [[|c payload]|].
    + apply keeps_bind; [apply keeps_logger|intros _; apply keeps_ret].
    + apply keeps_bind.
      * unfold write_file. apply keeps_bind; [apply keeps_guard|intros _].
        apply keeps_modify. intros s. apply P_file.
      * intros _. apply keeps_bind; [apply keeps_logger|intros _; apply keeps_ret].
    + apply keeps_bind; [apply keeps_logger|intros _; apply keeps_ret].
  - intros e. apply keeps_bind; [apply keeps_logger|intros _; apply keeps_ret].
Qed.

(** What holds right after the [Fetch] call still holds when
    [process_single_email] returns, for every property that the log,
    the files, the directories, the error counter, the flagging call
    and [store_email_metadata] keep. *)
Lemma process_single_email_keeps email_id :
  (forall st, P st -> P (add_call (FlagDeleted email_id) st)) ->
  (forall subj sndr d atts p,
     keeps P (store_email_metadata env email_id subj sndr d atts p)) ->
  forall st, P (add_call (Fetch email_id) st) ->
             P (snd (process_single_email env email_id st)).
Proof.
  intros P_flag P_store st H.
  assert (Hh : forall e, keeps P
             (bind (modify (fun st => set_error_count (error_count st + 1) st))
                (fun _ => bind (logger ERROR ("Error processing email: " ++ str_exn e))
                            (fun _ => ret false)))).
  { intros e. apply keeps_bind; [apply keeps_modify; intros; now apply P_count|].
    intros _. apply keeps_bind; [apply keeps_logger|intros _; apply keeps_ret]. }
  unfold process_single_email, try_except.
  unfold bind at 1. unfold mail_fetch at 1. unfold bind at 1. unfold modify at 1.
  destruct (imap_fetch env email_id) as [[status msg_data]|e];
    cbn [ret raise]; [|now apply Hh].
  match goal with
  | |- P (snd (match ?k ?s with _ => _ end)) =>
      assert (Hk : keeps P k); [|specialize (Hk s H); destruct (k s) as [[a|e] s1];
                                  cbn [snd] in *; [exact Hk|now apply Hh]]
  end.
  destruct (negb _).
  { apply keeps_bind; [apply keeps_logger|intros _; apply keeps_ret]. }
  apply keeps_bind.
  { destruct msg_data; [apply keeps_ret|apply keeps_raise]. }
  intros m.
  apply keeps_bind; [apply safe_decode_header_keeps|intros subj].
  apply keeps_bind; [apply safe_decode_header_keeps|intros sndr].
  apply keeps_bind; [apply safe_decode_header_keeps|intros d].
  apply keeps_bind.
  { unfold os_makedirs. apply keeps_bind; [apply keeps_guard|intros _].
    apply keeps_modify. intros s. apply P_dir. }
  intros _. apply keeps_bind; [apply process_parts_keeps|intros saved].
  destruct saved.
  { apply keeps_bind; [apply keeps_logger|intros _; apply keeps_ret]. }
  apply keeps_bind; [apply P_store|intros _].
  apply keeps_bind; [|intros _; apply keeps_ret].
  destruct (delete_after_archive env); [|apply keeps_ret].
  unfold mail_store_deleted.
  apply keeps_bind; [apply keeps_modify; exact P_flag|intros _; apply keeps_guard].
Qed.

End Keeps.

(** ** A whole run *)

Section WholeRun.

Variable env : Env.

Lemma fetched_add_call c st :
  fetched (add_call c st)
  = fetched st ++ match c with Fetch i => [i] | _ => [] end.
Proof. unfold fetched. cbn [add_call imap]. rewrite flat_map_app. cbn. now rewrite app_nil_r. Qed.

(** every message handled costs exactly one [Fetch] *)
Lemma process_single_email_fetches email_id st :
  fetched (snd (process_single_email env email_id st)) = fetched st ++ [email_id].
Proof.
  apply (process_single_email_keeps env
           (fun s => fetched s = fetched st ++ [email_id])); try (intros; assumption).
  - intros s Hs. now rewrite fetched_add_call, app_nil_r.
  - intros subj sndr d atts p s Hs.
    rewrite <- Hs. apply (store_email_metadata_frame env fetched); reflexivity.
  - apply fetched_add_call.
Qed.

(** the counter moves by one at most, and only with [False] returned *)
Lemma process_single_email_counter email_id st :
  error_count (snd (process_single_email env email_id st)) = error_count st
  \/ (error_count (snd (process_single_email env email_id st)) = error_count st + 1
      /\ fst (process_single_email env email_id st) = Ok false).
Proof.
  unfold process_single_email.
  match goal with
  | |- context [try_except ?m ?h st] =>
      assert (Hm : preserves m error_count)
  end.
  { apply preserves_bind; [unfold mail_fetch; frame|intros [status msg_data]].
    destruct (negb _); [unfold logger; frame|].
    apply preserves_bind; [frame|intros m].
    apply preserves_bind; [now apply safe_decode_header_frame|intros subj].
    apply preserves_bind; [now apply safe_decode_header_frame|intros sndr].
    apply preserves_bind; [now apply safe_decode_header_frame|intros d].
    apply preserves_bind; [unfold os_makedirs; frame|intros _].
    apply preserves_bind; [now apply process_parts_frame|intros saved].
    destruct saved; [unfold logger; frame|].
    apply preserves_bind; [now apply store_email_metadata_frame|intros _].
    unfold mail_store_deleted. frame. }
  unfold try_except. specialize (Hm st).
  match goal with
  | |- context [match ?m st with _ => _ end] => destruct (m st) as [[a|e] s1]
  end; cbn [fst snd] in *.
  - now left.
  - right. unfold bind, modify, logger, ret. cbn. split; [lia|reflexivity].
Qed.

(** The loop fetches a prefix of the identifiers it is given, in their
    order; the count it returns grows by at most one per message
    fetched; the error counter ends at most at the threshold, unless it
    was above it before. *)
Lemma process_batch_fetches ids : forall n st,
  exists k n' st',
    process_batch env ids n st = (Ok n', st')
    /\ k <= length ids
    /\ fetched st' = fetched st ++ firstn k ids
    /\ n <= n' <= n + k
    /\ error_count st' <= Nat.max (error_count st) max_errors.
Proof.
  induction ids as [|email_id rest IH]; intros n st.
  - exists 0, n, st. cbn. rewrite app_nil_r.
    split; [reflexivity|]. split; [lia|]. split; [reflexivity|]. lia.
  - rewrite process_batch_cons.
    destruct (max_errors <=? error_count st) eqn:Hmax.
    + exists 0, n, (add_log ERROR "Reached maximum error limit, stopping" st).
      cbn [firstn]. rewrite app_nil_r. cbn [add_log error_count length].
      split; [reflexivity|]. split; [lia|]. split; [reflexivity|]. lia.
    + apply Nat.leb_gt in Hmax.
      pose proof (process_single_email_fetches email_id st) as Hf.
      pose proof (process_single_email_counter email_id st) as Hc.
      destruct (process_single_email_total env email_id st) as [ok Hok].
      destruct (process_single_email env email_id st) as [[ok'|e] s1];
        cbn [fst snd] in *; [|discriminate].
      destruct (IH (if ok' then n + 1 else n) s1)
        as (k & n' & st' & Hrun & Hk & Hfetch & Hn & Herr).
      exists (S k), n', st'. split; [exact Hrun|].
      cbn [firstn length]. rewrite Hfetch, Hf, <- app_assoc. cbn [app].
      split; [lia|]. split; [reflexivity|]. split.
      * destruct ok'; lia.
      * unfold max_errors in *. lia.
Qed.

(** [process_emails] in terms of what the search returned *)
Lemma process_emails_searched st status ids :
  imap_connect_raises env = false ->
  imap_search env = Ok (status, ids) ->
  status <> "OK" ->
  process_emails env st
  = (Ok None,
     let st1 := add_log WARNING "Email search failed or no new emails"
                  (add_call Search (add_call Login st)) in
     if imap_close_raises env then add_call Close st1
     else add_call Logout (add_call Close st1)).
Proof.
  intros Hconn Hsearch Hstatus. apply String.eqb_neq in Hstatus.
  unfold process_emails. rewrite (bind_ok _ _ true _ (add_call Login st)).
  2:{ unfold connect_to_mailbox, try_except, bind, modify, guard, ret.
      now rewrite Hconn. }
  cbn [negb]. rewrite try_finally_closing.
  unfold mail_search, try_except, bind, modify, ret, raise, logger.
  rewrite Hsearch. cbv beta iota. rewrite Hstatus. cbn [negb fst snd].
  destruct (imap_close_raises env); reflexivity.
Qed.

Lemma process_emails_search_raises st e :
  imap_connect_raises env = false ->
  imap_search env = Raise e ->
  process_emails env st
  = (Ok None,
     let st1 := add_log ERROR ("Fatal error: " ++ str_exn e)
                  (add_call Search (add_call Login st)) in
     if imap_close_raises env then add_call Close st1
     else add_call Logout (add_call Close st1)).
Proof.
  intros Hconn Hsearch.
  unfold process_emails. rewrite (bind_ok _ _ true _ (add_call Login st)).
  2:{ unfold connect_to_mailbox, try_except, bind, modify, guard, ret.
      now rewrite Hconn. }
  cbn [negb]. rewrite try_finally_closing.
  unfold mail_search, try_except, bind, modify, ret, raise, logger.
  rewrite Hsearch. cbn [fst snd].
  destruct (imap_close_raises env); reflexivity.
Qed.

End WholeRun.

(** X10.  A run of [process_emails] never changes or removes a row of
    the store: started on a connection without pending transaction and
    a store with distinct rows, it ends on such a connection and such a
    store, all earlier rows unchanged in front of the new ones. *)
Theorem process_emails_keeps_rows env db0 :
  keeps (store_grown_from db0) (process_emails env).
Proof.
  set (P := store_grown_from db0).
  assert (Hany : forall (g : State -> State),
            (forall st, db_conn (g st) = db_conn st) -> forall st, P st -> P (g st)).
  { intros g Hg st (db & Hc & Hrest). exists db. now rewrite Hg. }
  assert (Hlog : forall l msg, keeps P (logger l msg)).
  { intros l msg. apply keeps_modify. intros st. now apply Hany. }
  assert (Hcall : forall c, keeps P (modify (add_call c))).
  { intros c. apply keeps_modify. intros st. now apply Hany. }
  assert (Hone : forall email_id, keeps P (process_single_email env email_id)).
  { intros email_id st Hst.
    apply (process_single_email_keeps env P); try (intros; now apply Hany).
    intros subj sndr d atts p. apply store_email_metadata_keeps_rows. }
  assert (Hbatch : forall ids n, keeps P (process_batch env ids n)).
  { induction ids as [|email_id rest IH]; intros n; cbn [process_batch];
      [apply keeps_ret|].
    apply keeps_bind; [intros st H; exact H|intros s].
    destruct (max_errors <=? error_count s).
    - apply keeps_bind; [apply Hlog|intros _; apply keeps_ret].
    - apply keeps_bind; [apply Hone|intros ok; apply IH]. }
  unfold process_emails.
  apply keeps_bind.
  { unfold connect_to_mailbox. apply keeps_try_except.
    - apply keeps_bind; [apply Hcall|intros _].
      apply keeps_bind; [apply keeps_guard|intros _; apply keeps_ret].
    - intros e. apply keeps_bind; [apply Hlog|intros _; apply keeps_ret]. }
  intros [|]; cbn [negb].
  2:{ apply keeps_bind; [apply Hlog|intros _; apply keeps_ret]. }
  apply keeps_try_finally.
  - apply keeps_try_except.
    + apply keeps_bind.
      { unfold mail_search. apply keeps_bind; [apply Hcall|intros _].
        destruct (imap_search env); [apply keeps_ret|apply keeps_raise]. }
      intros [status ids]. destruct (negb _).
      { apply keeps_bind; [apply Hlog|intros _; apply keeps_ret]. }
      apply keeps_bind; [apply Hlog|intros _].
      apply keeps_bind; [apply Hbatch|intros n].
      apply keeps_bind; [apply Hlog|intros _; apply keeps_ret].
    + intros e. apply keeps_bind; [apply Hlog|intros _; apply keeps_ret].
  - apply keeps_try_except; [|intros _; apply keeps_ret].
    unfold mail_close, mail_logout.
    apply keeps_bind.
    { apply keeps_bind; [apply Hcall|intros _; apply keeps_guard]. }
    intros _. apply keeps_bind; [apply Hcall|intros _; apply keeps_guard].
Qed.

Lemma process_emails_keeps_rows_witness :
  store_grown_from empty_db (snd (process_emails inbox fresh)).
Proof.
  apply (process_emails_keeps_rows inbox empty_db).
  exists empty_db. split; [reflexivity|]. split.
  - repeat split; apply NoDup_nil_2.
  - apply grown_from_refl.
Defined.

(** X11.  A run never raises and fetches at most 100 messages: the
    identifiers fetched are the first [k <= 100] of those the search
    returned, in the order returned and each once; and the number of
    messages it reports as processed is at most [k]. *)
Theorem process_emails_fetches_a_prefix env st :
  exists k r st',
    process_emails env st = (Ok r, st')
    /\ k <= max_emails_per_session
    /\ fetched st' = fetched st ++ firstn k (search_ids env)
    /\ (r = None \/ exists n, r = Some n /\ n <= k).
Proof.
  assert (Hclose : forall s,
            fetched (if imap_close_raises env then add_call Close s
                     else add_call Logout (add_call Close s)) = fetched s).
  { intros s. destruct (imap_close_raises env);
      rewrite !fetched_add_call, ?app_nil_r; reflexivity. }
  destruct (imap_connect_raises env) eqn:Hconn.
  { exists 0. eexists _, _.
    split; [exact (process_emails_not_connected env st Hconn)|].
    split; [unfold max_emails_per_session; lia|]. split; [|now left].
    cbn [firstn]. rewrite app_nil_r. unfold fetched. cbn [add_log add_call imap].
    rewrite flat_map_app. cbn. now rewrite app_nil_r. }
  unfold search_ids.
  destruct (imap_search env) as [[status ids]|e] eqn:Hsearch.
  2:{ exists 0. eexists _, _.
      split; [exact (process_emails_search_raises env st e Hconn Hsearch)|].
      split; [unfold max_emails_per_session; lia|]. split; [|now left].
      cbv zeta. rewrite Hclose. cbn [firstn]. rewrite app_nil_r.
      unfold fetched. cbn [add_log add_call imap].
      rewrite !flat_map_app. cbn. now rewrite !app_nil_r. }
  destruct (String.eqb status "OK") eqn:Hstatus.
  2:{ apply String.eqb_neq in Hstatus. exists 0. eexists _, _.
      split; [exact (process_emails_searched env st status ids Hconn Hsearch Hstatus)|].
      split; [unfold max_emails_per_session; lia|]. split; [|now left].
      cbv zeta. rewrite Hclose. cbn [firstn]. rewrite app_nil_r.
      unfold fetched. cbn [add_log add_call imap].
      rewrite !flat_map_app. cbn. now rewrite !app_nil_r. }
  apply String.eqb_eq in Hstatus. subst status.
  destruct (process_batch_fetches env (firstn max_emails_per_session ids) 0
              (batch_start (length ids) st))
    as (k & n & st1 & Hrun & Hk & Hfetch & Hn & _).
  rewrite length_firstn in Hk.
  exists k. eexists _, _.
  split; [exact (process_emails_batch env st ids n st1 Hconn Hsearch Hrun)|].
  split; [lia|]. split.
  - cbv zeta. rewrite Hclose. unfold fetched at 1. cbn [add_log imap].
    fold (fetched st1). rewrite Hfetch, firstn_firstn.
    replace (Nat.min k max_emails_per_session) with k by lia.
    f_equal. unfold batch_start, fetched. cbn [add_log add_call imap].
    rewrite !flat_map_app. cbn. now rewrite !app_nil_r.
  - right. exists n. split; [reflexivity|lia].
Qed.

(** X12.  A run leaves the error counter at the threshold at most,
    unless it was already above it: the loop stops as soon as the
    threshold is reached, and a message adds one at most. *)
Theorem error_count_bounded_per_run env st :
  error_count (snd (process_emails env st))
  <= Nat.max (error_count st) max_errors.
Proof.
  destruct (imap_connect_raises env) eqn:Hconn.
  { rewrite (process_emails_not_connected env st Hconn). cbn. lia. }
  destruct (imap_search env) as [[status ids]|e] eqn:Hsearch.
  2:{ rewrite (process_emails_search_raises env st e Hconn Hsearch).
      cbv zeta. destruct (imap_close_raises env); cbn; lia. }
  destruct (String.eqb status "OK") eqn:Hstatus.
  2:{ apply String.eqb_neq in Hstatus.
      rewrite (process_emails_searched env st status ids Hconn Hsearch Hstatus).
      cbv zeta. destruct (imap_close_raises env); cbn; lia. }
  apply String.eqb_eq in Hstatus. subst status.
  destruct (process_batch_fetches env (firstn max_emails_per_session ids) 0
              (batch_start (length ids) st))
    as (k & n & st1 & Hrun & _ & _ & _ & Herr).
  rewrite (process_emails_batch env st ids n st1 Hconn Hsearch Hrun).
  cbv zeta. cbn [batch_start add_log add_call error_count] in Herr.
  destruct (imap_close_raises env); cbn [snd add_call add_log error_count];
    exact Herr.
Qed.

(** X13.  When the search raises or answers with a status other than
    [OK], the run processes nothing: no message is fetched, the store,
    the files and the error counter are unchanged, and the session is
    closed as after a batch. *)
Theorem failed_search_processes_nothing env st :
  imap_connect_raises env = false ->
  (forall ids, imap_search env <> Ok ("OK", ids)) ->
  exists st',
    process_emails env st = (Ok None, st')
    /\ imap st' = imap st ++ [Login; Search; Close]
                  ++ (if imap_close_raises env then [] else [Logout])
    /\ db_conn st' = db_conn st /\ files st' = files st
    /\ error_count st' = error_count st.
Proof.
  intros Hconn Hsearch.
  destruct (imap_search env) as [[status ids]|e] eqn:Hs.
  - assert (Hstatus : status <> "OK") by (intros ->; now apply (Hsearch ids)).
    rewrite (process_emails_searched env st status ids Hconn Hs Hstatus).
    eexists. split; [reflexivity|]. cbv zeta.
    destruct (imap_close_raises env);
      cbn [add_call add_log imap db_conn files error_count];
      rewrite <- ?app_assoc; repeat split; reflexivity.
  - rewrite (process_emails_search_raises env st e Hconn Hs).
    eexists. split; [reflexivity|]. cbv zeta.
    destruct (imap_close_raises env);
      cbn [add_call add_log imap db_conn files error_count];
      rewrite <- ?app_assoc; repeat split; reflexivity.
Qed.

Lemma failed_search_processes_nothing_witness :
  exists st',
    process_emails search_refused fresh = (Ok None, st')
    /\ imap st' = [Login; Search; Close; Logout].
Proof.
  destruct (failed_search_processes_nothing search_refused fresh eq_refl)
    as (st' & Hrun & Himap & _).
  - intros ids H. discriminate H.
  - exists st'. split; [exact Hrun|exact Himap].
Defined.



(** ** Flagging for deletion *)




(** ** Searching, further *)

Lemma in_firstn {A} (x : A) n : forall l, In x (firstn n l) -> In x l.
Proof.
  induction n as [|n IH]; intros [|y l] H; cbn in H; try contradiction.
  destruct H as [->|H]; [now left|right; now apply IH].
Qed.

(** every selected row comes from a record of the store *)
Lemma select_all_from_records db pattern h :
  In h (select_all db pattern) ->
  exists e, In e (archived_emails db) /\ h = hit_of e.
Proof.
  unfold select_all. intros H.
  apply (Permutation_in _ (order_by_date_desc_perm _)) in H.
  rewrite <- list_elem_of_In, elem_of_remove_dups, list_elem_of_In in H.
  apply in_map_iff in H as ([e so] & <- & Hin).
  apply filter_In in Hin as [Hjoin _]. apply in_left_join in Hjoin as [He _].
  now exists e.
Qed.

(** there are no more selected rows than records *)
Lemma select_all_length db pattern :
  length (select_all db pattern) <= length (archived_emails db).
Proof.
  rewrite <- (length_map hit_of (archived_emails db)).
  apply submseteq_length, NoDup_submseteq; [apply select_all_distinct|].
  intros h Hh. rewrite list_elem_of_In in Hh.
  apply select_all_from_records in Hh as (e & He & ->).
  rewrite list_elem_of_In. apply in_map. exact He.
Qed.

(** X16.  Searching never changes the store, the files or the error
    counter; and when it returns a list, the list has at most 100 rows,
    each made of the columns of a record that is in the store.  This
    holds for every query text, wildcards included. *)
Theorem search_returns_stored_rows env query st :
  db_conn (snd (search_emails env query st)) = db_conn st
  /\ files (snd (search_emails env query st)) = files st
  /\ error_count (snd (search_emails env query st)) = error_count st
  /\ ((exists e, fst (search_emails env query st) = Raise e)
      \/ exists hits c,
           fst (search_emails env query st) = Ok hits
           /\ db_conn st = Some c
           /\ length hits <= 100
           /\ Forall (fun h => exists e, In e (archived_emails (working c))
                                         /\ h = hit_of e) hits).
Proof.
  destruct (db_conn st) as [c|] eqn:Hc.
  2:{ unfold search_emails, bind, self_db_conn. rewrite Hc. cbn [fst snd].
      repeat split; try assumption. left. now exists AttributeError. }
  rewrite (search_emails_connected env query st c Hc).
  destruct (select_raises env 0).
  { cbn [fst snd]. repeat split; try assumption. left. now exists OperationalError. }
  destruct (select_raises env 1); cbn [fst snd add_log db_conn files error_count].
  - repeat split; try assumption. right. exists [], c.
    repeat split; [cbn; lia|constructor].
  - repeat split; try assumption. right. eexists _, c.
    split; [reflexivity|]. split; [reflexivity|].
    split; [apply firstn_le_length|].
    apply List.Forall_forall. intros h Hh.
    apply in_firstn in Hh. now apply select_all_from_records in Hh.
Qed.



(** the row a successful INSERT appends *)
Lemma insert_archived_email_row db email_id subj sndr d atts p now db1 rowid :
  insert_archived_email db email_id subj sndr d atts p now = Ok (db1, rowid) ->
  archived_emails db1
  = archived_emails db
    ++ [{| e_id := rowid; e_email_id := email_id; e_subject := subj;
           e_sender := sndr; e_date_received := d; e_attachments := atts;
           e_keywords := None; e_archive_path := p; e_processed_at := now |}].
Proof.
  unfold insert_archived_email. destruct (existsb _ _); [discriminate|].
  intros H. injection H as <- <-. reflexivity.
Qed.

(** X18.  What is stored can be found.  After a metadata insert that
    commits, in a store of fewer than 100 records, a wildcard-free
    query whose stripped, lower-cased text occurs up to ASCII case in
    the subject, the sender, the joined attachment names or the date of
    the message returns a list that holds the row of that message. *)
Theorem stored_record_is_found env email_id subj sndr date_received atts
    archive_path st db query field :
  db_conn st = Some (connect_db db) ->
  (forall k, sqlite_raises env email_id k = false) ->
  existsb (fun e => String.eqb (e_email_id e) email_id) (archived_emails db)
    = false ->
  length (archived_emails db) < 100 ->
  select_raises env 0 = false ->
  select_raises env 1 = false ->
  no_wildcard query ->
  In field [subj; sndr; Text.join ", " atts; date_received] ->
  contains_nocase (Text.lower (Text.strip query)) field = true ->
  exists hits st',
    search_emails env query
      (snd (store_email_metadata env email_id subj sndr date_received atts
              archive_path st))
    = (Ok hits, st')
    /\ In {| subject := subj; sender := sndr; date := date_received;
             attachments := Text.join ", " atts; path := archive_path |} hits.
Proof.
  intros Hc Hno Hnew Hlen H0 H1 Hq Hfield Hcontains.
  destruct (store_email_metadata_commits env email_id subj sndr date_received
              atts archive_path st _ Hc Hno Hnew)
    as (db1 & rowid & Hins & ->).
  cbn [snd connect_db working] in *.
  set (db' := keyword_rows db1 rowid (elements (extract_keywords subj sndr))).
  erewrite (search_emails_connected env query _ (connect_db db')) by reflexivity.
  rewrite H0, H1.
  eexists _, _. split; [reflexivity|]. unfold select_hits.
  cbn [connect_db working].
  pose proof (insert_archived_email_row _ _ _ _ _ _ _ _ _ _ Hins) as Hrow.
  destruct (keyword_rows_emails (elements (extract_keywords subj sndr)) db1 rowid)
    as [Hemails _]. fold db' in Hemails. rewrite Hrow in Hemails.
  rewrite firstn_all2.
  2:{ etransitivity; [apply select_all_length|].
      rewrite Hemails, length_app. cbn [length]. lia. }
  apply select_all_matches; [now apply query_no_wildcard|].
  eexists. split; [rewrite Hemails; apply in_or_app; right; left; reflexivity|].
  split; [reflexivity|]. cbn [e_subject e_sender e_attachments e_date_received].
  destruct Hfield as [<-|[<-|[<-|[<-|[]]]]]; tauto.
Qed.

(** a search for part of the attachment name right after archiving *)
Lemma stored_record_is_found_witness :
  exists hits st',
    search_emails inbox " FINAL.pdf"
      (snd (store_email_metadata inbox "1" "Quarterly sales report"
              "Ann Lee <ann@example.org>" "Tue, 02 Jan 2024"
              ["report_final.pdf"; "notes.txt"] "./archive/1" fresh))
    = (Ok hits, st')
    /\ In {| subject := "Quarterly sales report";
             sender := "Ann Lee <ann@example.org>";
             date := "Tue, 02 Jan 2024";
             attachments := "report_final.pdf, notes.txt";
             path := "./archive/1" |} hits.
Proof.
  apply (stored_record_is_found inbox "1" "Quarterly sales report"
           "Ann Lee <ann@example.org>" "Tue, 02 Jan 2024"
           ["report_final.pdf"; "notes.txt"] "./archive/1" fresh empty_db
           " FINAL.pdf" "report_final.pdf, notes.txt").
  - reflexivity.
  - intros k. reflexivity.
  - reflexivity.
  - cbn. lia.
  - reflexivity.
  - reflexivity.
  - vm_compute. repeat split; discriminate.
  - right. right. left. reflexivity.
  - vm_compute. reflexivity.
Defined.

(** ** Configuration *)

(** X19.  Deletion after archiving is switched on exactly when the
    variable [DELETE_AFTER_ARCHIVE] is set to [true] in any mix of upper
    and lower case; unset, or set to anything else ([1], [yes], ...),
    it is off. *)
Theorem delete_after_archive_needs_true (environ : gmap string string) :
  cfg_delete_after_archive (load_config environ) = true
  <-> exists value, environ !! "DELETE_AFTER_ARCHIVE" = Some value
                    /\ Text.lower value = "true".
Proof.
  unfold load_config, getenv. cbn [cfg_delete_after_archive].
  destruct (environ !! "DELETE_AFTER_ARCHIVE") as [value|].
  - rewrite String.eqb_eq. split.
    + intros H. now exists value.
    + intros (v & Hv & Hl). now injection Hv as ->.
  - split; [intros H; vm_compute in H; discriminate H|].
    intros (v & Hv & _). discriminate Hv.
Qed.

Lemma delete_after_archive_needs_true_witness :
  cfg_delete_after_archive
    (load_config {[ "DELETE_AFTER_ARCHIVE" := "TRUE" ]}) = true
  /\ cfg_delete_after_archive
       (load_config {[ "DELETE_AFTER_ARCHIVE" := "1" ]}) = false.
Proof.
  split.
  - apply (proj2 (delete_after_archive_needs_true
                    {[ "DELETE_AFTER_ARCHIVE" := "TRUE" ]})).
    exists "TRUE". split; [apply lookup_singleton_eq|reflexivity].
  - apply not_true_is_false. intros H.
    apply (proj1 (delete_after_archive_needs_true
                    {[ "DELETE_AFTER_ARCHIVE" := "1" ]})) in H
      as (v & Hv & Hl).
    rewrite lookup_singleton_eq in Hv. injection Hv as <-. discriminate Hl.
Defined.

(** X20.  The start-up check lets the program go on exactly when both
    [EMAIL] and [PASSWORD] are set to non-empty values; a variable that
    is unset or set to the empty string stops it. *)
Theorem start_needs_credentials (environ : gmap string string) :
  (exists config, checked_config environ = Some config)
  <-> exists email password,
        environ !! "EMAIL" = Some email /\ email <> EmptyString
        /\ environ !! "PASSWORD" = Some password /\ password <> EmptyString.
Proof.
  unfold checked_config, load_config. cbn [cfg_email cfg_password].
  destruct (environ !! "EMAIL") as [[|c e]|];
    destruct (environ !! "PASSWORD") as [[|d p]|]; cbn [truthy andb]; split;
    try (intros [config H]; discriminate H);
    try (intros (e' & p' & H1 & H2 & H3 & H4); congruence).
  - intros _. exists (String c e), (String d p). repeat split; discriminate.
  - intros _. eexists. reflexivity.
Qed.

Lemma start_needs_credentials_witness :
  exists config,
    checked_config {[ "EMAIL" := "ann@example.org"; "PASSWORD" := "secret" ]}
    = Some config.
Proof.
  apply (proj2 (start_needs_credentials
                  {[ "EMAIL" := "ann@example.org"; "PASSWORD" := "secret" ]})).
  exists "ann@example.org", "secret".
  repeat split; try discriminate; reflexivity.
Defined.

(** ** The clean-up *)

Section Cleanup.

Variable env : Env.
Variable cenv : CleanupEnv.

Lemma skipn_app_length {A} (l k : list A) : skipn (length l) (l ++ k) = k.
Proof. induction l as [|x l IH]; [reflexivity|exact IH]. Qed.

(** a lifted computation whose calls are known *)
Lemma lift_eq {A} (m : M A) w calls :
  imap (snd (m (narrow w))) = imap (narrow w) ++ calls ->
  lift m w
  = (fst (m (narrow w)),
     {| narrow := snd (m (narrow w));
        session := session w ++ List.map Imap calls |}).
Proof.
  intros H. unfold lift. destruct (m (narrow w)) as [r st'].
  cbn [fst snd] in *. now rewrite H, skipn_app_length.
Qed.

Lemma lift_logger l msg w :
  lift (logger l msg) w
  = (Ok tt, {| narrow := add_log l msg (narrow w); session := session w |}).
Proof.
  rewrite (lift_eq _ w []); [|cbn; now rewrite app_nil_r].
  cbn. now rewrite app_nil_r.
Qed.

Lemma lift_connect w :
  lift (connect_to_mailbox env) w
  = (Ok (negb (imap_connect_raises env)),
     {| narrow := if imap_connect_raises env
                  then add_log ERROR "IMAP connection failed: IMAP4Error"
                         (add_call Login (narrow w))
                  else add_call Login (narrow w);
        session := session w ++ [Imap Login] |}).
Proof.
  rewrite (lift_eq _ w [Login]).
  - unfold connect_to_mailbox, try_except, bind, modify, guard, ret, raise, logger.
    destruct (imap_connect_raises env); reflexivity.
  - unfold connect_to_mailbox, try_except, bind, modify, guard, ret, raise, logger.
    destruct (imap_connect_raises env); reflexivity.
Qed.

(** the [finally] clause of the clean-up: it is not guarded *)
Lemma cleanup_closing w :
  wbind (lift (mail_close env)) (fun _ => lift (mail_logout env)) w
  = (if imap_close_raises env || imap_logout_raises env
     then Raise IMAP4Error else Ok tt,
     {| narrow := if imap_close_raises env then add_call Close (narrow w)
                  else add_call Logout (add_call Close (narrow w));
        session := session w
          ++ Imap Close
             :: (if imap_close_raises env then [] else [Imap Logout]) |}).
Proof.
  assert (Hclose : forall st,
            mail_close env st
            = (if imap_close_raises env then Raise IMAP4Error else Ok tt,
               add_call Close st)).
  { intros st. unfold mail_close, bind, modify, guard, ret, raise.
    destruct (imap_close_raises env); reflexivity. }
  assert (Hlogout : forall st,
            mail_logout env st
            = (if imap_logout_raises env then Raise IMAP4Error else Ok tt,
               add_call Logout st)).
  { intros st. unfold mail_logout, bind, modify, guard, ret, raise.
    destruct (imap_logout_raises env); reflexivity. }
  unfold wbind. rewrite (lift_eq _ w [Close]) by now rewrite Hclose.
  rewrite Hclose. cbn [fst snd List.map].
  destruct (imap_close_raises env); cbn [orb]; [reflexivity|].
  rewrite (lift_eq _ _ [Logout]) by now rewrite Hlogout.
  rewrite Hlogout. cbn [narrow session fst snd List.map].
  rewrite <- app_assoc.
  destruct (imap_logout_raises env); reflexivity.
Qed.

(** the [try] block never raises; it adds the SELECT, then the EXPUNGE
    if the purge was confirmed, and one log line *)
Lemma cleanup_confirm_eq w :
  exists lvl msg,
    cleanup_confirm cenv w
    = (Ok tt,
       {| narrow := add_log lvl msg (narrow w);
          session := session w
            ++ SelectInbox :: (if confirmed cenv then [Expunge] else []) |}).
Proof.
  unfold cleanup_confirm, wtry_except, wbind, session_call, input, confirmed.
  destruct (select_fails cenv); cbn [negb andb].
  { rewrite lift_logger. now eexists _, _. }
  destruct (answer cenv) as [response|e].
  2:{ rewrite lift_logger. now eexists _, _. }
  destruct (String.eqb (Text.lower response) "y").
  - destruct (expunge_fails cenv); rewrite lift_logger; cbn [narrow session];
      eexists _, _; rewrite <- app_assoc; reflexivity.
  - rewrite lift_logger. now eexists _, _.
Qed.

(** The clean-up on a session that could be opened.  Whatever happens
    in the [try] block is logged and swallowed; the result is that of
    the closing calls. *)
Lemma cleanup_mailbox_connected w :
  imap_connect_raises env = false ->
  exists lvl msg,
    cleanup_mailbox env cenv w
    = (if imap_close_raises env || imap_logout_raises env
       then Raise IMAP4Error else Ok tt,
       {| narrow :=
            (let st := add_log lvl msg (add_call Login (narrow w)) in
             if imap_close_raises env then add_call Close st
             else add_call Logout (add_call Close st));
          session :=
            session w
            ++ Imap Login :: SelectInbox
                 :: (if confirmed cenv then [Expunge] else [])
                 ++ Imap Close
                    :: (if imap_close_raises env then [] else [Imap Logout]) |}).
Proof.
  intros Hconn. unfold cleanup_mailbox.
  unfold wbind at 1. rewrite lift_connect, Hconn. cbn [negb].
  unfold wtry_finally.
  match goal with
  | |- context [cleanup_confirm cenv ?w1] =>
      destruct (cleanup_confirm_eq w1) as (lvl & msg & ->)
  end.
  rewrite cleanup_closing. cbn [narrow session].
  exists lvl, msg. rewrite <- !app_assoc. cbn [app].
  destruct (imap_close_raises env || imap_logout_raises env); reflexivity.
Qed.

(** without a session the clean-up returns at once *)
Lemma cleanup_mailbox_not_connected w :
  imap_connect_raises env = true ->
  cleanup_mailbox env cenv w
  = (Ok tt,
     {| narrow := add_log ERROR "IMAP connection failed: IMAP4Error"
                    (add_call Login (narrow w));
        session := session w ++ [Imap Login] |}).
Proof.
  intros Hconn. unfold cleanup_mailbox.
  unfold wbind. rewrite lift_connect, Hconn. reflexivity.
Qed.

End Cleanup.

(** X21.  The clean-up calls [expunge()] exactly when the session could
    be opened, the SELECT did not raise, and the answer read at the
    prompt is [y] or [Y]; any other answer ([yes], a blank before the
    letter, ...) and any failure before the prompt leave it out.  The
    clean-up never touches the store, the files or the error counter. *)
Theorem cleanup_expunges_only_when_confirmed env cenv w :
  exists calls,
    session (snd (cleanup_mailbox env cenv w)) = session w ++ calls
    /\ (In Expunge calls
        <-> imap_connect_raises env = false /\ select_fails cenv = false
            /\ exists response, answer cenv = Ok response
                                /\ Text.lower response = "y")
    /\ db_conn (narrow (snd (cleanup_mailbox env cenv w))) = db_conn (narrow w)
    /\ files (narrow (snd (cleanup_mailbox env cenv w))) = files (narrow w)
    /\ error_count (narrow (snd (cleanup_mailbox env cenv w)))
       = error_count (narrow w).
Proof.
  assert (Hconf : confirmed cenv = true
                  <-> select_fails cenv = false
                      /\ exists response, answer cenv = Ok response
                                          /\ Text.lower response = "y").
  { unfold confirmed. destruct (select_fails cenv); cbn [negb andb].
    - split; [discriminate|]. intros [H _]. discriminate H.
    - destruct (answer cenv) as [response|e].
      + rewrite String.eqb_eq. split.
        * intros H. split; [reflexivity|]. now exists response.
        * intros (_ & r & Hr & Hy). now injection Hr as ->.
      + split; [discriminate|]. intros (_ & r & Hr & _). discriminate Hr. }
  destruct (imap_connect_raises env) eqn:Hconn.
  - rewrite (cleanup_mailbox_not_connected env cenv w Hconn).
    exists [Imap Login]. cbn [snd narrow session add_log add_call db_conn files
                                error_count].
    split; [reflexivity|]. split; [|repeat split].
    split; [intros [H|[]]; discriminate H|intros [H _]; discriminate H].
  - destruct (cleanup_mailbox_connected env cenv w Hconn) as (lvl & msg & ->).
    eexists. cbn [snd narrow session]. split; [reflexivity|]. split.
    + rewrite <- Hconf. destruct (confirmed cenv); cbn [app]; split.
      * intros _. split; reflexivity.
      * intros _. right. right. now left.
      * intros [H|[H|[H|H]]]; try discriminate H.
        destruct (imap_close_raises env); [destruct H|].
        destruct H as [H|[]]. discriminate H.
      * intros [_ H]. discriminate H.
    + cbv zeta. destruct (imap_close_raises env); repeat split.
Qed.

Lemma cleanup_expunges_only_when_confirmed_witness :
  In Expunge (session (snd (cleanup_mailbox quiet says_yes at_rest)))
  /\ ~ In Expunge (session (snd (cleanup_mailbox quiet says_yes_in_full at_rest))).
Proof.
  split.
  - destruct (cleanup_expunges_only_when_confirmed quiet says_yes at_rest)
      as (calls & -> & Hiff & _).
    apply Hiff. split; [reflexivity|]. split; [reflexivity|].
    exists "Y". split; reflexivity.
  - destruct (cleanup_expunges_only_when_confirmed quiet says_yes_in_full at_rest)
      as (calls & -> & Hiff & _).
    intros Hin. apply Hiff in Hin as (_ & _ & r & Hr & Hy).
    injection Hr as <-. discriminate Hy.
Defined.

(** X22.  On a session that could be opened, the result of the clean-up
    is decided by the closing calls alone: a failure of the SELECT, of
    the prompt or of the EXPUNGE is logged and swallowed, but a failure
    of [close()] or [logout()] is raised to the caller, and after a
    failed [close()] the [logout()] call is never made. *)
Theorem cleanup_closing_failure_escapes env cenv w :
  imap_connect_raises env = false ->
  fst (cleanup_mailbox env cenv w)
  = (if imap_close_raises env || imap_logout_raises env
     then Raise IMAP4Error else Ok tt)
  /\ (In (Imap Logout) (session (snd (cleanup_mailbox env cenv w)))
      -> imap_close_raises env = false \/ In (Imap Logout) (session w)).
Proof.
  intros Hconn.
  destruct (cleanup_mailbox_connected env cenv w Hconn) as (lvl & msg & ->).
  cbn [fst snd session]. split; [reflexivity|].
  intros Hin. destruct (imap_close_raises env); [|now left]. right.
  apply in_app_or in Hin as [Hin|Hin]; [exact Hin|exfalso].
  destruct Hin as [H|[H|Hin]]; try discriminate H.
  apply in_app_or in Hin as [Hin|[H|[]]]; [|discriminate H].
  destruct (confirmed cenv); [destruct Hin as [H|[]]; discriminate H|destruct Hin].
Qed.

Lemma cleanup_closing_failure_escapes_witness :
  fst (cleanup_mailbox close_fails says_yes at_rest) = Raise IMAP4Error
  /\ ~ In (Imap Logout) (session (snd (cleanup_mailbox close_fails says_yes at_rest))).
Proof.
  destruct (cleanup_closing_failure_escapes close_fails says_yes at_rest eq_refl)
    as [Hres Hlogout].
  split; [exact Hres|].
  intros Hin. destruct (Hlogout Hin) as [H|[]]. discriminate H.
Defined.

(** ** The contract of [process_single_email] *)

(** X23.  Whatever the server, the disk and SQLite do,
    [process_single_email] returns a boolean and never raises; it makes
    exactly one FETCH, for the identifier it was given; and it either
    leaves the error counter alone or adds one to it, in which case it
    returns [False]. *)
Theorem process_single_email_contract env email_id st :
  exists ok st',
    process_single_email env email_id st = (Ok ok, st')
    /\ fetched st' = fetched st ++ [email_id]
    /\ (error_count st' = error_count st
        \/ (error_count st' = error_count st + 1 /\ ok = false)).
Proof.
  pose proof (process_single_email_fetches env email_id st) as Hf.
  pose proof (process_single_email_counter env email_id st) as Hc.
  destruct (process_single_email_total env email_id st) as [ok Hok].
  destruct (process_single_email env email_id st) as [[ok'|e] st'];
    cbn [fst snd] in *; [|discriminate].
  exists ok', st'. split; [reflexivity|]. split; [exact Hf|].
  destruct Hc as [Hc|[Hc Hr]]; [now left|right].
  split; [exact Hc|]. now injection Hr.
Qed.
